(** * The bloom-gateway worker (pkg/bloomgateway/worker.go)

    A shallow embedding of [worker.running], [worker.processBlocksWithCallback]
    and [worker.processBlock], and the properties of one worker-loop
    iteration: which tasks are closed, which receive outputs or errors, how
    cancellation and per-day failures propagate, and when the dequeued batch
    is handed back to the queue.

    Effects are made explicit.  Everything the worker does that another
    component can observe (a send on a task channel, a call to [Task.Close],
    a call to the store, a metrics increment, a release of the batch) is an
    [Event]; a computation returns its value together with the events it
    performed, in order.  Cancellation tokens are set from outside, at any
    moment: the embedding carries a logical clock that advances at every
    observation of a token ([Task.Err]), and the environment says at which
    instant each token fires. *)

From Stdlib Require Import ZArith Lia.
From stdpp Require Import base option list gmap strings sorting.

Open Scope Z_scope.

(** ** Data *)

(** Go [error] values the worker creates, compares or forwards. *)
Inductive error : Type :=
| ErrStopped                        (* queue.ErrStopped *)
| ErrContextCanceled                (* what a cancelled task's ctx.Err() returns *)
| ErrShuttingDown (cause : error)   (* errors.Wrapf(ctx.Err(), "shutting down worker %s", id) *)
| ErrNilItem                        (* errors.New("dequeued item is nil") *)
| ErrCast (tag : nat)               (* errors.Errorf("failed to cast dequeued item to Task: %v", item) *)
| ErrNoOverlap (minFp maxFp : Z)    (* fmt.Errorf("no overlapping blocks for range %x-%x") *)
| ErrExternal (code : nat).         (* any other error of the queue, the store or the query engine *)

#[global] Instance error_eq_dec : EqDecision error.
Proof. solve_decision. Defined.

(** [time.Time] in nanoseconds; [Day] is the package constant 24h. *)
Definition Day : Z := 24 * 3600 * 1000000000.

(** [model.TimeFromUnixNano]: milliseconds, Go integer division. *)
Definition toModelTime (t : Z) : Z := Z.quot t 1000000.

(** A task as the worker uses it: [ID], [Tenant], the fingerprints of
    [Request.Refs], and the two day boundaries that [Bounds] returns. *)
Record Task : Type := mkTask {
  ID : nat;
  Tenant : string;
  fromDay : Z;
  throughDay : Z;
  Refs : list Z
}.

#[global] Instance Task_eq_dec : EqDecision Task.
Proof. solve_decision. Defined.

(** Modelled from the spec: [Task.Bounds] is declared outside worker.go; the
    task carries its bounds "[fromDay, throughDay) at day granularity". *)
Definition Bounds (t : Task) : Z * Z := (fromDay t, throughDay t).

(** Modelled from the spec: [Task.Copy] is declared outside worker.go; the
    copy is the same task (same identity, same channels) restricted to the
    given fingerprint refs. *)
Definition Copy (t : Task) (refs : list Z) : Task :=
  mkTask (ID t) (Tenant t) (fromDay t) (throughDay t) refs.

(** An element of the dequeued batch ([queue.Request] is an empty interface). *)
Inductive Request : Type :=
| ReqNil
| ReqTask (t : Task)
| ReqOther (tag : nat).

Record BlockRef : Type := mkBlockRef {
  MinFingerprint : Z;
  MaxFingerprint : Z
}.

#[global] Instance BlockRef_eq_dec : EqDecision BlockRef.
Proof. solve_decision. Defined.

Record boundedTasks : Type := mkBounded {
  blockRef : BlockRef;
  tasks : list Task
}.

(** [v1.Output]: a fingerprint and the chunks that can be removed. *)
Record Output : Type := mkOutput {
  Fp : Z;
  Removals : list nat
}.

#[global] Instance Output_eq_dec : EqDecision Output.
Proof. solve_decision. Defined.

(** ** Observable actions

    Sends on a task's channels, calls of its [Close] (declared outside
    worker.go: it marks the task's channels complete, and a repeated call is
    ignored), calls to the store and to the queue, counters and error-level
    log lines.  Latency samples and debug log lines are left out. *)

Inductive Event : Type :=
| EvObserveWait                                  (* metrics.dequeueWaitTime.Observe *)
| EvIncDequeueErrors                             (* metrics.dequeueErrors.Inc *)
| EvAddDequeuedTasks (n : nat)                   (* metrics.dequeuedTasks.Add *)
| EvLogError (msg : string)                      (* level.Error(...).Log *)
| EvPendingDelete (id : nat)                     (* w.tasks.Delete(task.ID) *)
| EvSendRes (id : nat) (o : Output)              (* t.ResCh <- o *)
| EvSendErr (id : nat) (e : error)               (* t.ErrCh <- e *)
| EvClose (id : nat)                             (* task.Close() *)
| EvGetBlockRefs (tenant : string) (from through : Z)   (* w.shipper.GetBlockRefs *)
| EvFetch (tenant : string) (refs : list BlockRef)      (* w.shipper.Fetch *)
| EvQueryRun (reqs : list (nat * Z))             (* fq.Run() over the merged requests *)
| EvRelease (n : nat).                           (* w.queue.ReleaseRequests(items) *)

#[global] Instance Event_eq_dec : EqDecision Event.
Proof. solve_decision. Defined.

(** ** Computations: a value, the events performed, the clock afterwards *)

Record Res (A : Type) : Type := mkRes { val : A; out : list Event; clk : nat }.
Arguments mkRes {A} _ _ _.
Arguments val {A} _.
Arguments out {A} _.
Arguments clk {A} _.

Definition M (A : Type) : Type := nat -> Res A.

Definition ret {A} (a : A) : M A := fun c => mkRes a [] c.

Definition bind {A B} (m : M A) (f : A -> M B) : M B :=
  fun c =>
    let r := m c in
    let r' := f (val r) (clk r) in
    mkRes (val r') (out r ++ out r') (clk r').

Definition emit (e : Event) : M unit := fun c => mkRes tt [e] c.

Notation "'do' x <- m ; k" := (bind m (fun x => k))
  (at level 10, x name, m at level 100, k at level 200).
Notation "'do_' m ; k" := (bind m (fun _ => k))
  (at level 10, m at level 100, k at level 200).

(** ** The collaborators *)

(** Modelled from the spec: the per-block query engine ([v1.BlockQuerier] and
    the fused query built from it) lives outside worker.go.  Its contract:
    [schema() -> (ngramLength, err)], and [run() -> err] "executes and writes
    results to the channels embedded in the request stream".  A querier is
    described by its schema result, the removals it computes for a
    fingerprint and, when its run fails, the number of requests it answered
    before failing and the error. *)
Record BlockQuerier : Type := mkBQ {
  bqSchema : error + nat;
  bqRemovals : Z -> list nat;
  bqFailure : option (nat * error)
}.

(** One thing [shipper.Fetch] does before it returns: hand a fetched block
    to the callback, or fail. *)
Inductive FetchStep : Type :=
| FetchBlock (bq : BlockQuerier) (minFp maxFp : Z)
| FetchFail (e : error).

(** The environment of one iteration: the cancellation tokens, the store and
    the order in which the Go runtime enumerates [tasksByDay] in each of the
    two [range] loops. *)
Record Env : Type := mkEnv {
  cancelledAt : nat -> option nat;
  getBlockRefs : string -> Z -> Z -> error + list BlockRef;
  fetchScript : string -> list BlockRef -> list FetchStep;
  dayRangeOrder : list nat;
  closeRangeOrder : list nat
}.

(** [context.Context] as the worker passes it down. *)
Inductive Context : Type :=
| Background
| Done (e : error).

Definition ctxErr (ctx : Context) : option error :=
  match ctx with Background => None | Done e => Some e end.

(** [t.Err() != nil] at instant [c]: the token fired at or before [c]. *)
Definition cancelledBy (env : Env) (t : Task) (c : nat) : bool :=
  match cancelledAt env (ID t) with
  | Some n => bool_decide (n ≤ c)%nat
  | None => false
  end.

(** One observation of a task's token.  The source sometimes reads
    [task.Err()] again for the log line that follows a positive test; a token
    stays set, so one observation stands for them. *)
Definition taskErr (env : Env) (t : Task) : M bool :=
  fun c => mkRes (cancelledBy env t c) [] (S c).

(** ** [slices.DeleteFunc] (golang.org/x/exp/slices)

    The library compacts the slice in place: the elements that are kept are
    written to the front of the same backing array, the result is the prefix
    [s[:j]], and the positions from [j] on keep what they held.  (The library
    skips the writes before the first deleted element, where source and
    destination coincide.)  The pair returned is the resulting slice and the
    backing array, which every other slice header over it still sees. *)
Fixpoint deleteFuncFrom (del : Task -> M bool) (s : list Task) (i j n : nat)
  : M (list Task * nat) :=
  match n with
  | O => ret (s, j)
  | S n' =>
      match s !! i with
      | None => ret (s, j)
      | Some v =>
          do b <- del v;
          if b then deleteFuncFrom del s (S i) j n'
          else deleteFuncFrom del (<[j := v]> s) (S i) (S j) n'
      end
  end.

Definition DeleteFunc (del : Task -> M bool) (s : list Task)
  : M (list Task * list Task) :=
  do r <- deleteFuncFrom del s 0 0 (length s);
  ret (take (snd r) (fst r), fst r).

(** ** The parts of the package that worker.go calls *)

(** Modelled from the spec: [partitionFingerprintRange] is declared outside
    worker.go.  "Output: a list of Partitioned-Task-Groups, one per BlockRef,
    each holding the subset of tasks whose fingerprint space overlaps that
    BlockRef's [minFp, maxFp]"; a task in several ranges appears in several
    groups, "each receiving only the overlapping subset of its refs";
    "BlockRefs with no overlapping tasks are dropped". *)
Definition inBlock (b : BlockRef) (fp : Z) : bool :=
  bool_decide (MinFingerprint b ≤ fp) && bool_decide (fp ≤ MaxFingerprint b).

Definition boundTask (b : BlockRef) (t : Task) : option Task :=
  match filter (fun fp => inBlock b fp = true) (Refs t) with
  | [] => None
  | refs => Some (Copy t refs)
  end.

Definition partitionFingerprintRange (ts : list Task) (blocks : list BlockRef)
  : list boundedTasks :=
  blocks ≫= (fun block =>
                match omap (boundTask block) ts with
                | [] => []
                | bounded => [mkBounded block bounded]
                end).

(** Modelled from the spec: [newTaskMergeIterator] is declared outside
    worker.go.  It is "a single merged, peekable stream over the block's
    assigned tasks' fingerprint refs, ordered by fingerprint", the per-task
    order kept among ties.  A request is the identity of the task whose
    channels it carries, and the fingerprint. *)
Definition fpLe (a b : nat * Z) : Prop := a.2 ≤ b.2.

#[global] Instance fpLe_dec : RelDecision fpLe.
Proof. intros a b. unfold fpLe. apply _. Defined.

Definition RequestIter (t : Task) : list (nat * Z) :=
  (fun fp => (ID t, fp)) <$> Refs t.

Definition newTaskMergeIterator (ts : list Task) : list (nat * Z) :=
  foldr (fun t acc => list_merge fpLe (RequestIter t) acc) [] ts.

(** Modelled from the spec: the fused query's [Run] (outside worker.go).  It
    answers the requests in order, each answer written to the result channel
    of the task the request belongs to; a failing run stops after the
    requests it had answered. *)
Definition answer (bq : BlockQuerier) (r : nat * Z) : Event :=
  EvSendRes r.1 (mkOutput r.2 (bqRemovals bq r.2)).

Definition Run (bq : BlockQuerier) (reqs : list (nat * Z)) : M (option error) :=
  fun c =>
    match bqFailure bq with
    | None => mkRes None (EvQueryRun reqs :: (answer bq <$> reqs)) c
    | Some (n, e) => mkRes (Some e) (EvQueryRun reqs :: (answer bq <$> take n reqs)) c
    end.

(** Modelled from the spec: [shipper.Fetch] (outside worker.go) invokes the
    callback "once per fetched block, synchronously, before fetch returns";
    it returns the first error, its own or the callback's. *)
Fixpoint Fetch (steps : list FetchStep)
    (callback : BlockQuerier -> Z -> Z -> M (option error)) : M (option error) :=
  match steps with
  | [] => ret None
  | FetchFail e :: _ => ret (Some e)
  | FetchBlock bq minFp maxFp :: rest =>
      do r <- callback bq minFp maxFp;
      match r with
      | Some e => ret (Some e)
      | None => Fetch rest callback
      end
  end.

(** ** worker.processBlock (lines 285-330) *)

(** Lines 309-314: the first task whose token is set ends the loop. *)
Fixpoint checkTasks (env : Env) (ts : list Task) : M (option error) :=
  match ts with
  | [] => ret None
  | t :: rest =>
      do cancelled <- taskErr env t;
      if cancelled then ret (Some ErrContextCanceled) else checkTasks env rest
  end.

Definition processBlock (env : Env) (ctx : Context) (blockQuerier : BlockQuerier)
    (day : Z) (ts : list Task) : M (option error) :=
  match bqSchema blockQuerier with
  | inl err => ret (Some err)
  | inr _ =>
      let it := newTaskMergeIterator ts in
      match ctxErr ctx with
      | Some err => ret (Some err)
      | None =>
          do r <- checkTasks env ts;
          match r with
          | Some err => ret (Some err)
          | None => Run blockQuerier it
          end
      end
  end.

(** ** worker.processBlocksWithCallback (lines 260-283) *)

Fixpoint findGroup (partitionedTasks : list boundedTasks) (minFp maxFp : Z)
  : option boundedTasks :=
  match partitionedTasks with
  | [] => None
  | pt :: rest =>
      if bool_decide (MinFingerprint (blockRef pt) = minFp)
         && bool_decide (MaxFingerprint (blockRef pt) = maxFp)
      then Some pt
      else findGroup rest minFp maxFp
  end.

Definition blockCallback (env : Env) (ctx : Context) (day : Z)
    (partitionedTasks : list boundedTasks)
    (bq : BlockQuerier) (minFp maxFp : Z) : M (option error) :=
  match findGroup partitionedTasks minFp maxFp with
  | Some pt => processBlock env ctx bq day (tasks pt)
  | None => ret (Some (ErrNoOverlap minFp maxFp))
  end.

Definition processBlocksWithCallback (env : Env) (ctx : Context) (tenant : string)
    (day : Z) (partitionedTasks : list boundedTasks) : M (option error) :=
  let blockRefs := blockRef <$> partitionedTasks in
  do_ emit (EvFetch tenant blockRefs);
  Fetch (fetchScript env tenant blockRefs)
        (blockCallback env ctx day partitionedTasks).

(** ** worker.running: one day bucket (lines 176-238) *)

Fixpoint sendErrAll (err : error) (ts : list Task) : M unit :=
  match ts with
  | [] => ret tt
  | t :: rest => do_ emit (EvSendErr (ID t) err); sendErrAll err rest
  end.

Fixpoint sendRefs (id : nat) (refs : list Z) : M unit :=
  match refs with
  | [] => ret tt
  | ref :: rest => do_ emit (EvSendRes id (mkOutput ref [])); sendRefs id rest
  end.

Fixpoint passThrough (ts : list Task) : M unit :=
  match ts with
  | [] => ret tt
  | t :: rest => do_ sendRefs (ID t) (Refs t); passThrough rest
  end.

(** What the loop body does once the cancelled tasks are removed and at
    least one task is left (lines 194-237). *)
Definition processTasks (env : Env) (iterationCtx : Context) (day : Z)
    (ts : list Task) (tenant0 : string) : M unit :=
  let from := toModelTime day in
  let through := toModelTime (day + Day + -1 * 1) in
  do_ emit (EvGetBlockRefs tenant0 from through);
  match getBlockRefs env tenant0 from through with
  | inl err => sendErrAll err ts
  | inr [] => passThrough ts
  | inr blockRefs =>
      let partitionedTasks := partitionFingerprintRange ts blockRefs in
      do r <- processBlocksWithCallback env iterationCtx tenant0 day partitionedTasks;
      match r with
      | Some err =>
          do_ emit (EvLogError "processed with an error");
          sendErrAll err ts
      | None => ret tt
      end
  end.

(** The body of the loop over [tasksByDay].  [bucket] is the slice stored in
    the map; the local [tasks] is re-bound to the result of [DeleteFunc], the
    map entry is not, and both share one backing array: the value returned is
    that array as the compaction left it, which is what the map entry holds
    when the closing loop reads it. *)
Definition processDay (env : Env) (iterationCtx : Context) (day : Z)
    (bucket : list Task) : M (list Task) :=
  do r <- DeleteFunc (taskErr env) bucket;
  match fst r with
  | [] => ret (snd r)
  | t0 :: _ =>
      do_ processTasks env iterationCtx day (fst r) (Tenant t0);
      ret (snd r)
  end.

(** ** Go maps

    [tasksByDay] is a [map[time.Time][]Task].  A [range] over a map visits
    its entries in an order the runtime chooses: the entries are taken from
    the map and put in the order that the environment's seeds select (each
    element is inserted at the position its seed names, so every order can be
    chosen and every choice is an order of the same entries). *)
Fixpoint insertAt {A} (n : nat) (x : A) (l : list A) : list A :=
  match n, l with
  | O, _ => x :: l
  | S _, [] => [x]
  | S n', y :: l' => y :: insertAt n' x l'
  end.

Fixpoint rangeOrder {A} (seeds : list nat) (l : list A) : list A :=
  match l with
  | [] => []
  | x :: l' => insertAt (hd O seeds) x (rangeOrder (tl seeds) l')
  end.

(** [tasksByDay[day] = append(tasksByDay[day], task)] *)
Definition mapAppend (day : Z) (task : Task) (tasksByDay : gmap Z (list Task))
  : gmap Z (list Task) :=
  <[day := default [] (tasksByDay !! day) ++ [task]]> tasksByDay.

(** The values [i] takes in
    [for i := fromDay; i.Before(throughDay); i = i.Add(Day)]. *)
Fixpoint daysFrom (fuel : nat) (i throughDay : Z) : list Z :=
  match fuel with
  | O => []
  | S fuel' =>
      if bool_decide (i < throughDay)
      then i :: daysFrom fuel' (i + Day) throughDay
      else []
  end.

Definition spanDays (fromDay throughDay : Z) : list Z :=
  daysFrom (Z.to_nat ((throughDay - fromDay) `div` Day + 1)) fromDay throughDay.

(** Lines 164-173. *)
Definition bucketTask (task : Task) (tasksByDay : gmap Z (list Task))
  : gmap Z (list Task) :=
  let (fromDay, throughDay) := Bounds task in
  if bool_decide (fromDay = throughDay)
  then mapAppend fromDay task tasksByDay
  else foldl (fun m i => mapAppend i task m) tasksByDay (spanDays fromDay throughDay).

(** ** worker.running: the loop over the dequeued items (lines 142-174)

    [n] is [len(items)] of the whole batch, which the two early returns hand
    back to the queue. *)
Fixpoint acceptItems (env : Env) (n : nat) (items : list Request)
    (tasksByDay : gmap Z (list Task)) : M (error + gmap Z (list Task)) :=
  match items with
  | [] => ret (inr tasksByDay)
  | ReqNil :: _ =>
      do_ emit (EvRelease n);
      ret (inl ErrNilItem)
  | ReqOther tag :: _ =>
      do_ emit (EvRelease n);
      ret (inl (ErrCast tag))
  | ReqTask task :: rest =>
      do_ emit (EvPendingDelete (ID task));
      do cancelled <- taskErr env task;
      if cancelled
      then do_ emit (EvClose (ID task)); acceptItems env n rest tasksByDay
      else acceptItems env n rest (bucketTask task tasksByDay)
  end.

(** Lines 176-238: every entry of the map, in the order of this [range]; the
    result is the map as the loop leaves it (same keys, same slice headers,
    backing arrays as compacted). *)
Fixpoint dayLoop (env : Env) (iterationCtx : Context)
    (entries : list (Z * list Task)) : M (list (Z * list Task)) :=
  match entries with
  | [] => ret []
  | (day, bucket) :: rest =>
      do backing <- processDay env iterationCtx day bucket;
      do rest' <- dayLoop env iterationCtx rest;
      ret ((day, backing) :: rest')
  end.

(** Lines 241-246. *)
Fixpoint closeTasks (ts : list Task) : M unit :=
  match ts with
  | [] => ret tt
  | task :: rest => do_ emit (EvClose (ID task)); closeTasks rest
  end.

Fixpoint closeLoop (entries : list (Z * list Task)) : M unit :=
  match entries with
  | [] => ret tt
  | (_, ts) :: rest => do_ closeTasks ts; closeLoop rest
  end.

(** ** worker.running: one pass of the [default] branch (lines 119-249) *)

(** What [w.queue.DequeueMany] returned. *)
Record Dequeued : Type := mkDequeued {
  dqItems : list Request;
  dqNewIdx : Z;
  dqErr : option error
}.

(** How a pass ends: the loop goes on with the new queue index, or
    [running] returns. *)
Inductive Step : Type :=
| Continue (idx : Z)
| Return (e : error).

(** Lines 132-249: everything after the dequeue error check. *)
Definition processBatch (env : Env) (items : list Request) (newIdx : Z) : M Step :=
  if bool_decide (length items = 0%nat)
  then
    do_ emit (EvRelease (length items));
    ret (Continue newIdx)
  else
    do_ emit (EvAddDequeuedTasks (length items));
    let iterationCtx := Background in
    do r <- acceptItems env (length items) items ∅;
    match r with
    | inl err => ret (Return err)
    | inr tasksByDay =>
        do after <- dayLoop env iterationCtx
                      (rangeOrder (dayRangeOrder env) (map_to_list tasksByDay));
        do_ closeLoop (rangeOrder (closeRangeOrder env) after);
        do_ emit (EvRelease (length items));
        ret (Continue newIdx)
    end.

Definition iteration (env : Env) (dq : Dequeued) : M Step :=
  do_ emit EvObserveWait;
  match dqErr dq with
  | Some err =>
      if bool_decide (err = ErrStopped) && bool_decide (length (dqItems dq) = 0%nat)
      then
        do_ emit (EvLogError "queue is stopped");
        ret (Return err)
      else
        do_ emit EvIncDequeueErrors;
        do_ emit (EvLogError "failed to dequeue tasks");
        processBatch env (dqItems dq) (dqNewIdx dq)
  | None => processBatch env (dqItems dq) (dqNewIdx dq)
  end.

(** The [for] loop of [running] (lines 112-251), against a script of what the
    outer context and the queue answer at each pass.  [None]: the script is
    used up and the worker is still running. *)
Fixpoint running (env : Env) (script : list (Context * Dequeued)) : M (option error) :=
  match script with
  | [] => ret None
  | (ctx, dq) :: script' =>
      match ctxErr ctx with
      | Some e => ret (Some (ErrShuttingDown e))
      | None =>
          do s <- iteration env dq;
          match s with
          | Return e => ret (Some e)
          | Continue _ => running env script'
          end
      end
  end.

(** ** Reading a trace *)

(** The events on the channels of task [id], and the calls to its [Close]. *)
Definition ofTask (id : nat) (e : Event) : bool :=
  match e with
  | EvSendRes i _ | EvSendErr i _ | EvClose i => bool_decide (i = id)
  | _ => false
  end.

Definition isSendRes (id : nat) (e : Event) : bool :=
  match e with EvSendRes i _ => bool_decide (i = id) | _ => false end.

Definition isSendErr (id : nat) (e : Event) : bool :=
  match e with EvSendErr i _ => bool_decide (i = id) | _ => false end.

Definition isClose (id : nat) (e : Event) : bool :=
  match e with EvClose i => bool_decide (i = id) | _ => false end.

Definition isRelease (e : Event) : bool :=
  match e with EvRelease _ => true | _ => false end.

Definition events (id : nat) (tr : list Event) : list Event :=
  filter (fun e => ofTask id e = true) tr.

Definition count (p : Event -> bool) (tr : list Event) : nat :=
  length (filter (fun e => p e = true) tr).

(** * Definitions used to state the properties *)

(** The tasks of [s] whose token is not set when it is looked at, the first
    one at instant [c], the next at [c + 1], and so on. *)
Fixpoint survivors (env : Env) (c : nat) (s : list Task) : list Task :=
  match s with
  | [] => []
  | t :: s' =>
      if cancelledBy env t c then survivors env (S c) s'
      else t :: survivors env (S c) s'
  end.

(** One error sent to each task, in order (lines 202-204, 232-234). *)
Definition errEvents (err : error) (ts : list Task) : list Event :=
  (fun t => EvSendErr (ID t) err) <$> ts.

(** One Output without removals per task and fingerprint ref (lines 213-220). *)
Definition passEvents (ts : list Task) : list Event :=
  ts ≫= (fun t => (fun fp => EvSendRes (ID t) (mkOutput fp [])) <$> Refs t).

(** The day's own store error, or the error of its block processing; [None]
    when the day succeeds.  [c] is the instant after the compaction. *)
Definition dayError (env : Env) (ctx : Context) (day : Z) (ts : list Task)
    (tenant0 : string) (c : nat) : option error :=
  match getBlockRefs env tenant0 (toModelTime day) (toModelTime (day + Day + -1 * 1)) with
  | inl err => Some err
  | inr [] => None
  | inr blockRefs =>
      val (processBlocksWithCallback env ctx tenant0 day
             (partitionFingerprintRange ts blockRefs) c)
  end.

(** The events of a day up to the broadcast of its error. *)
Definition dayWork (env : Env) (ctx : Context) (day : Z) (ts : list Task)
    (tenant0 : string) (c : nat) : list Event :=
  EvGetBlockRefs tenant0 (toModelTime day) (toModelTime (day + Day + -1 * 1)) ::
  match getBlockRefs env tenant0 (toModelTime day) (toModelTime (day + Day + -1 * 1)) with
  | inl _ => []
  | inr [] => passEvents ts
  | inr blockRefs =>
      let r := processBlocksWithCallback env ctx tenant0 day
                 (partitionFingerprintRange ts blockRefs) c in
      out r ++ match val r with
               | Some _ => [EvLogError "processed with an error"]
               | None => []
               end
  end.

(** A store call, a log line, or a query run or a send that concerns only
    the tasks whose identities are in [ids]. *)
Definition mentionsOnly (ids : list nat) (e : Event) : Prop :=
  match e with
  | EvSendRes i _ | EvSendErr i _ => i ∈ ids
  | EvQueryRun reqs => forall r, r ∈ reqs -> r.1 ∈ ids
  | EvGetBlockRefs _ _ _ | EvFetch _ _ | EvLogError _ => True
  | _ => False
  end.

(** The identities of the tasks of a batch. *)
Fixpoint itemIDs (items : list Request) : list nat :=
  match items with
  | [] => []
  | ReqTask t :: rest => ID t :: itemIDs rest
  | _ :: rest => itemIDs rest
  end.

(** The first item that is not a task, as the error it raises. *)
Fixpoint firstInvalid (items : list Request) : option error :=
  match items with
  | [] => None
  | ReqNil :: _ => Some ErrNilItem
  | ReqOther tag :: _ => Some (ErrCast tag)
  | ReqTask _ :: rest => firstInvalid rest
  end.

(** The tasks, up to the first invalid item, whose token is not set when the
    loop reaches them: those that enter the day buckets. *)
Fixpoint acceptedTasks (env : Env) (c : nat) (items : list Request) : list Task :=
  match items with
  | ReqTask t :: rest =>
      if cancelledBy env t c then acceptedTasks env (S c) rest
      else t :: acceptedTasks env (S c) rest
  | _ => []
  end.

(** What the dequeue loop does, item after item, from instant [c]. *)
Fixpoint acceptEvents (env : Env) (n c : nat) (items : list Request) : list Event :=
  match items with
  | [] => []
  | ReqTask t :: rest =>
      EvPendingDelete (ID t)
      :: (if cancelledBy env t c then [EvClose (ID t)] else [])
      ++ acceptEvents env n (S c) rest
  | _ :: _ => [EvRelease n]
  end.

(** A prefix made of tasks only. *)
Definition allTasks (items : list Request) : Prop :=
  Forall (fun r => exists t, r = ReqTask t) items.

(** The days whose bucket a task is appended to (lines 164-173). *)
Definition taskDays (t : Task) : list Z :=
  if bool_decide (fromDay t = throughDay t) then [fromDay t]
  else spanDays (fromDay t) (throughDay t).

(** The map after the dequeue loop: the bucket of a day holds, in the order
    of the batch, the accepted tasks whose days include it. *)
Definition bucketOf (ts : list Task) (d : Z) : list Task :=
  filter (fun t => d ∈ taskDays t) ts.

(** The identities of the tasks held by the entries of the map. *)
Definition entryIDs (entries : list (Z * list Task)) : list nat :=
  entries ≫= (fun e => ID <$> e.2).

(** One call of [Close] per task held by each entry (lines 241-246). *)
Definition closeEvents (entries : list (Z * list Task)) : list Event :=
  entries ≫= (fun e => (fun t => EvClose (ID t)) <$> e.2).

(** The map after the dequeue loop, as the first [range] enumerates it. *)
Definition dayEntries (env : Env) (c : nat) (items : list Request) : list (Z * list Task) :=
  rangeOrder (dayRangeOrder env)
    (map_to_list (foldl (fun m t => bucketTask t m) ∅ (acceptedTasks env c items))).

(** A query run or an answer of the query engine. *)
Definition queryEvent (e : Event) : Prop :=
  match e with
  | EvSendRes _ _ | EvQueryRun _ => True
  | _ => False
  end.

(** ** Scenarios *)

Definition D0 : Z := 0.
Definition D1 : Z := Day.

Definition taskA : Task := mkTask 1 "tenant-a" D0 D0 [10; 20].
Definition taskB : Task := mkTask 2 "tenant-a" D0 D0 [10; 20].
Definition taskOther : Task := mkTask 2 "tenant-b" D0 D0 [30].
Definition taskTwoDays : Task := mkTask 1 "tenant-a" D0 (D1 + Day) [10; 20].

(** A store with no block for any day. *)
Definition noBlocks : string -> Z -> Z -> error + list BlockRef :=
  fun _ _ _ => inr [].

(** A store with no block for [D0] and that fails for every other day. *)
Definition failsAfterD0 : string -> Z -> Z -> error + list BlockRef :=
  fun _ from _ => if bool_decide (from = toModelTime D0) then inr [] else inl (ErrExternal 7).

(** A store with one block over the fingerprints 0..100, whose query keeps
    everything. *)
Definition oneBlock : string -> Z -> Z -> error + list BlockRef :=
  fun _ _ _ => inr [mkBlockRef 0 100].
Definition keepAll : BlockQuerier := mkBQ (inr 4%nat) (fun _ => []) None.
Definition fetchOne : string -> list BlockRef -> list FetchStep :=
  fun _ _ => [FetchBlock keepAll 0 100].

(** A store with two blocks for every day; the query of the first keeps
    everything, the query of the second fails before its first answer. *)
Definition twoBlocks : string -> Z -> Z -> error + list BlockRef :=
  fun _ _ _ => inr [mkBlockRef 0 15; mkBlockRef 16 100].
Definition failing : BlockQuerier := mkBQ (inr 4%nat) (fun _ => []) (Some (0%nat, ErrExternal 9)).
Definition envTwoBlocks : Env :=
  mkEnv (fun _ => None) twoBlocks
        (fun _ _ => [FetchBlock keepAll 0 15; FetchBlock failing 16 100]) [] [].

(** No token ever fires. *)
Definition envQuiet (store : string -> Z -> Z -> error + list BlockRef) : Env :=
  mkEnv (fun _ => None) store fetchOne [] [].

(** The token of task 1 fires at instant [n]. *)
Definition envCancel1 (n : nat) (store : string -> Z -> Z -> error + list BlockRef) : Env :=
  mkEnv (fun id => if decide (id = 1%nat) then Some n else None) store fetchOne [] [].

(** The identities given to [w.tasks.Delete], in order. *)
Definition pendingDeletes (tr : list Event) : list nat :=
  omap (fun e => match e with EvPendingDelete i => Some i | _ => None end) tr.

(** * Properties *)

(** ** Computations *)

Lemma val_bind {A B} (m : M A) (f : A -> M B) c :
  val (bind m f c) = val (f (val (m c)) (clk (m c))).
Proof. reflexivity. Qed.

Lemma out_bind {A B} (m : M A) (f : A -> M B) c :
  out (bind m f c) = out (m c) ++ out (f (val (m c)) (clk (m c))).
Proof. reflexivity. Qed.

Lemma clk_bind {A B} (m : M A) (f : A -> M B) c :
  clk (bind m f c) = clk (f (val (m c)) (clk (m c))).
Proof. reflexivity. Qed.

(** ** The compaction *)

Lemma deleteFuncFrom_spec env n : forall (s0 kept : list Task) (i c : nat),
  (length kept <= i)%nat -> (i + n = length s0)%nat ->
  let r := deleteFuncFrom (taskErr env) (kept ++ drop (length kept) s0) i (length kept) n c in
  let kept' := kept ++ survivors env c (drop i s0) in
  val r = (kept' ++ drop (length kept') s0, length kept')
  /\ out r = [] /\ clk r = (c + n)%nat.
Proof.
  induction n as [|n IH]; intros s0 kept i c Hj Hn; cbn zeta.
  - assert (i = length s0) as -> by lia.
    rewrite drop_all. cbn. rewrite app_nil_r. repeat split. lia.
  - assert (Hi : (i < length s0)%nat) by lia.
    destruct (lookup_lt_is_Some_2 s0 i Hi) as [v Hv].
    assert (Hlook : (kept ++ drop (length kept) s0) !! i = Some v).
    { rewrite lookup_app_r by lia. rewrite lookup_drop.
      replace (length kept + (i - length kept))%nat with i by lia. exact Hv. }
    cbn [deleteFuncFrom]. rewrite Hlook.
    rewrite (drop_S s0 v i Hv). cbn [survivors].
    rewrite val_bind, out_bind, clk_bind. cbn [taskErr val out clk].
    destruct (cancelledBy env v c) eqn:Hc.
    + destruct (IH s0 kept (S i) (S c)) as (H1 & H2 & H3); [lia | lia |].
      rewrite H1, H2, H3. repeat split. lia.
    + assert (Hjl : (length kept < length s0)%nat) by lia.
      destruct (lookup_lt_is_Some_2 s0 (length kept) Hjl) as [w Hw].
      assert (Hins : <[length kept := v]> (kept ++ drop (length kept) s0)
                     = (kept ++ [v]) ++ drop (length (kept ++ [v])) s0).
      { rewrite insert_app_r_alt by lia. rewrite Nat.sub_diag.
        rewrite (drop_S s0 w _ Hw). cbn. rewrite <- app_assoc. cbn.
        rewrite length_app. cbn. replace (length kept + 1)%nat with (S (length kept)) by lia.
        reflexivity. }
      rewrite Hins.
      replace (S (length kept)) with (length (kept ++ [v])) by (rewrite length_app; cbn; lia).
      destruct (IH s0 (kept ++ [v]) (S i) (S c)) as (H1 & H2 & H3);
        [rewrite length_app; cbn; lia | lia |].
      rewrite H1, H2, H3. rewrite <- !app_assoc. cbn. repeat split. lia.
Qed.

Lemma DeleteFunc_spec env (s : list Task) (c : nat) :
  let kept := survivors env c s in
  DeleteFunc (taskErr env) s c
  = mkRes (kept, kept ++ drop (length kept) s) [] (c + length s)%nat.
Proof.
  cbn zeta. unfold DeleteFunc.
  destruct (deleteFuncFrom_spec env (length s) s [] 0%nat c) as (H1 & H2 & H3);
    [cbn; lia | lia |].
  cbn [length app] in H1, H2, H3. rewrite !drop_0 in H1, H2, H3.
  unfold bind. destruct (deleteFuncFrom _ _ _ _ _ _) as [v o k].
  cbn in H1, H2, H3. subst. cbn.
  rewrite take_app_length. reflexivity.
Qed.

Lemma survivors_sublist env : forall s c, sublist (survivors env c s) s.
Proof.
  induction s as [|t s IH]; intros c; cbn; [constructor|].
  destruct (cancelledBy env t c); [apply sublist_cons | apply sublist_skip]; apply IH.
Qed.

Lemma survivors_elem env t : forall s c,
  t ∈ survivors env c s -> t ∈ s.
Proof. intros s c H. eapply elem_of_sublist; [exact H | apply survivors_sublist]. Qed.

Lemma survivors_never_cancelled env t : forall s c,
  cancelledAt env (ID t) = None -> t ∈ s -> t ∈ survivors env c s.
Proof.
  induction s as [|u s IH]; intros c Hn Hin; [inversion Hin|].
  cbn. destruct (decide (t = u)) as [->|Hne].
  - unfold cancelledBy. rewrite Hn. left.
  - assert (t ∈ s) by (inversion Hin; subst; [congruence | assumption]).
    destruct (cancelledBy env u c); [|right]; apply IH; assumption.
Qed.

(** ** The sends of one day *)

Lemma sendErrAll_spec err ts c :
  sendErrAll err ts c = mkRes tt (errEvents err ts) c.
Proof.
  induction ts as [|t ts IH]; [reflexivity|].
  cbn [sendErrAll]. unfold bind, emit. cbn [val out clk]. rewrite IH. reflexivity.
Qed.

Lemma sendRefs_spec id refs c :
  sendRefs id refs c = mkRes tt ((fun fp => EvSendRes id (mkOutput fp [])) <$> refs) c.
Proof.
  induction refs as [|r refs IH]; [reflexivity|].
  cbn [sendRefs]. unfold bind, emit. cbn [val out clk]. rewrite IH. reflexivity.
Qed.

Lemma passThrough_spec ts c :
  passThrough ts c = mkRes tt (passEvents ts) c.
Proof.
  induction ts as [|t ts IH]; [reflexivity|].
  cbn [passThrough]. unfold bind. rewrite sendRefs_spec. cbn [val out clk].
  rewrite IH. reflexivity.
Qed.

Lemma closeTasks_spec ts c :
  closeTasks ts c = mkRes tt ((fun t => EvClose (ID t)) <$> ts) c.
Proof.
  induction ts as [|t ts IH]; [reflexivity|].
  cbn [closeTasks]. unfold bind, emit. cbn [val out clk]. rewrite IH. reflexivity.
Qed.

Lemma closeLoop_spec entries c :
  closeLoop entries c
  = mkRes tt (entries ≫= (fun e => (fun t => EvClose (ID t)) <$> e.2)) c.
Proof.
  induction entries as [|[d ts] entries IH]; [reflexivity|].
  cbn [closeLoop]. unfold bind. rewrite closeTasks_spec. cbn [val out clk].
  rewrite IH. reflexivity.
Qed.

Lemma processTasks_out env ctx day ts tenant0 c :
  out (processTasks env ctx day ts tenant0 c)
  = dayWork env ctx day ts tenant0 c ++
    match dayError env ctx day ts tenant0 c with
    | Some err => errEvents err ts
    | None => []
    end.
Proof.
  unfold processTasks, dayWork, dayError. rewrite out_bind. cbn [emit val out clk].
  cbn [app]. f_equal.
  destruct (getBlockRefs env tenant0 _ _) as [err|[|b brs]].
  - rewrite sendErrAll_spec. reflexivity.
  - rewrite passThrough_spec. cbn. rewrite app_nil_r. reflexivity.
  - rewrite out_bind. cbn zeta.
    destruct (val (processBlocksWithCallback _ _ _ _ _ _)) as [err|].
    + rewrite out_bind, sendErrAll_spec. cbn [emit val out clk].
      rewrite <- app_assoc. reflexivity.
    + cbn [ret out]. rewrite !app_nil_r. reflexivity.
Qed.

Lemma processDay_spec env ctx day bucket c :
  let ts := survivors env c bucket in
  let c' := (c + length bucket)%nat in
  val (processDay env ctx day bucket c) = ts ++ drop (length ts) bucket
  /\ out (processDay env ctx day bucket c)
     = match ts with
       | [] => []
       | t0 :: _ => out (processTasks env ctx day ts (Tenant t0) c')
       end.
Proof.
  cbn zeta. unfold processDay.
  rewrite val_bind, out_bind, DeleteFunc_spec. cbn [val out clk fst snd].
  destruct (survivors env c bucket) as [|t0 rest] eqn:Hs.
  - split; reflexivity.
  - rewrite val_bind, out_bind. split; [reflexivity|].
    cbn [ret val out]. rewrite app_nil_r. reflexivity.
Qed.

(** ** Which tasks the events of a day can mention *)

Lemma mentionsOnly_mono ids ids' e :
  (forall i, i ∈ ids -> i ∈ ids') -> mentionsOnly ids e -> mentionsOnly ids' e.
Proof. intros Hsub; destruct e; cbn; auto. Qed.

Lemma Forall_mentionsOnly_mono ids ids' tr :
  (forall i, i ∈ ids -> i ∈ ids') ->
  Forall (mentionsOnly ids) tr -> Forall (mentionsOnly ids') tr.
Proof.
  intros Hsub H. eapply Forall_impl; [exact H|].
  intros e. apply mentionsOnly_mono, Hsub.
Qed.

Lemma merge_iterator_ids ts r :
  r ∈ newTaskMergeIterator ts -> r.1 ∈ ID <$> ts.
Proof.
  induction ts as [|t ts IH]; cbn; [intros H; inversion H|].
  rewrite merge_Permutation, elem_of_app. intros [H|H].
  - unfold RequestIter in H. apply list_elem_of_fmap in H as (fp & -> & _). left.
  - right. apply IH, H.
Qed.

Lemma Run_events bq reqs c ids :
  (forall r, r ∈ reqs -> r.1 ∈ ids) ->
  Forall (mentionsOnly ids) (out (Run bq reqs c)).
Proof.
  intros Hids. unfold Run.
  assert (Hans : forall l, (forall r, r ∈ l -> r ∈ reqs) ->
                           Forall (mentionsOnly ids) (answer bq <$> l)).
  { intros l Hl. apply Forall_fmap, Forall_forall. intros r Hr. cbn. auto. }
  destruct (bqFailure bq) as [[n e]|]; cbn [out]; constructor; auto.
  apply Hans. intros r Hr. eapply elem_of_sublist; [exact Hr | apply sublist_take].
Qed.

Lemma checkTasks_out env ts c : out (checkTasks env ts c) = [].
Proof.
  revert c. induction ts as [|t ts IH]; intros c; [reflexivity|].
  cbn [checkTasks]. rewrite out_bind. cbn [taskErr val out clk].
  destruct (cancelledBy env t c); [reflexivity | apply IH].
Qed.

Lemma processBlock_events env ctx bq day ts c :
  Forall (mentionsOnly (ID <$> ts)) (out (processBlock env ctx bq day ts c)).
Proof.
  unfold processBlock.
  destruct (bqSchema bq); [constructor|].
  destruct (ctxErr ctx); [constructor|].
  rewrite out_bind, checkTasks_out. cbn [app].
  destruct (val (checkTasks env ts c)); [constructor|].
  apply Run_events. intros r. apply merge_iterator_ids.
Qed.

Lemma boundTask_ID b t t' : boundTask b t = Some t' -> ID t' = ID t.
Proof.
  unfold boundTask. destruct (filter _ _); [discriminate|].
  intros [= <-]. reflexivity.
Qed.

Lemma partition_ids ts brs pt t :
  pt ∈ partitionFingerprintRange ts brs -> t ∈ tasks pt -> ID t ∈ ID <$> ts.
Proof.
  unfold partitionFingerprintRange. intros Hpt Ht.
  apply list_elem_of_bind in Hpt as (b & Hpt & _).
  destruct (omap (boundTask b) ts) as [|u us] eqn:Ho; [inversion Hpt|].
  apply list_elem_of_singleton in Hpt. subst pt. cbn in Ht. rewrite <- Ho in Ht.
  apply list_elem_of_omap in Ht as (t0 & Ht0 & Hb).
  apply boundTask_ID in Hb. rewrite Hb.
  apply list_elem_of_fmap. eauto.
Qed.

Lemma findGroup_elem pts mn mx pt : findGroup pts mn mx = Some pt -> pt ∈ pts.
Proof.
  induction pts as [|p pts IH]; cbn; [discriminate|].
  destruct (_ && _); [intros [= ->]; left | intros H; right; auto].
Qed.

Lemma Fetch_events (P : Event -> Prop) cb steps :
  (forall bq mn mx c, Forall P (out (cb bq mn mx c))) ->
  forall c, Forall P (out (Fetch steps cb c)).
Proof.
  intros Hcb. induction steps as [|[bq mn mx|e] steps IH]; intros c;
    [constructor | | constructor].
  cbn [Fetch]. rewrite out_bind. apply Forall_app. split; [apply Hcb|].
  destruct (val (cb bq mn mx c)); [constructor | apply IH].
Qed.

Lemma blockCallback_events env ctx day ts brs bq mn mx c :
  Forall (mentionsOnly (ID <$> ts))
         (out (blockCallback env ctx day (partitionFingerprintRange ts brs) bq mn mx c)).
Proof.
  unfold blockCallback.
  destruct (findGroup _ mn mx) as [pt|] eqn:Hf; [|constructor].
  apply findGroup_elem in Hf.
  eapply Forall_mentionsOnly_mono; [|apply processBlock_events].
  intros i Hi. apply list_elem_of_fmap in Hi as (t & -> & Ht).
  eapply partition_ids; eauto.
Qed.

Lemma processBlocksWithCallback_out env ctx tenant day pts c :
  out (processBlocksWithCallback env ctx tenant day pts c)
  = EvFetch tenant (blockRef <$> pts)
    :: out (Fetch (fetchScript env tenant (blockRef <$> pts))
                  (blockCallback env ctx day pts) c).
Proof. reflexivity. Qed.

Lemma errEvents_mentions err ts : Forall (mentionsOnly (ID <$> ts)) (errEvents err ts).
Proof.
  unfold errEvents. apply Forall_fmap, Forall_forall. intros t Ht. cbn.
  apply list_elem_of_fmap. eauto.
Qed.

Lemma passEvents_mentions ts : Forall (mentionsOnly (ID <$> ts)) (passEvents ts).
Proof.
  unfold passEvents. apply Forall_forall. intros e He.
  apply list_elem_of_bind in He as (t & He & Ht).
  apply list_elem_of_fmap in He as (fp & -> & _). cbn.
  apply list_elem_of_fmap. eauto.
Qed.

Lemma processTasks_events env ctx day ts tenant0 c :
  Forall (mentionsOnly (ID <$> ts)) (out (processTasks env ctx day ts tenant0 c)).
Proof.
  rewrite processTasks_out. apply Forall_app. split.
  - unfold dayWork. constructor; [exact I|].
    destruct (getBlockRefs env tenant0 _ _) as [err|[|b brs]];
      [constructor | apply passEvents_mentions |].
    cbn zeta. apply Forall_app. split.
    + rewrite processBlocksWithCallback_out. constructor; [exact I|].
      apply Fetch_events. intros. apply blockCallback_events.
    + destruct (val _); repeat constructor.
  - destruct (dayError _ _ _ _ _ _); [apply errEvents_mentions | constructor].
Qed.

Lemma processDay_events env ctx day bucket c :
  Forall (mentionsOnly (ID <$> bucket)) (out (processDay env ctx day bucket c)).
Proof.
  destruct (processDay_spec env ctx day bucket c) as [_ Hout]. rewrite Hout.
  destruct (survivors env c bucket) as [|t0 rest] eqn:Hs; [constructor|].
  eapply Forall_mentionsOnly_mono; [|apply processTasks_events].
  intros i Hi. apply list_elem_of_fmap in Hi as (t & -> & Ht).
  apply list_elem_of_fmap. exists t. split; [reflexivity|].
  eapply survivors_elem. rewrite Hs. exact Ht.
Qed.

Lemma processDay_val_elem env ctx day bucket c t :
  t ∈ val (processDay env ctx day bucket c) -> t ∈ bucket.
Proof.
  destruct (processDay_spec env ctx day bucket c) as [Hval _]. rewrite Hval.
  rewrite elem_of_app. intros [H|H].
  - eapply survivors_elem, H.
  - eapply elem_of_sublist; [exact H | apply sublist_drop].
Qed.

Lemma processDay_val_keeps env ctx day bucket c t :
  cancelledAt env (ID t) = None -> t ∈ bucket ->
  t ∈ val (processDay env ctx day bucket c).
Proof.
  intros Hn Hin. destruct (processDay_spec env ctx day bucket c) as [Hval _].
  rewrite Hval, elem_of_app. left. apply survivors_never_cancelled; assumption.
Qed.

(** ** The loop over the dequeued items *)

Lemma acceptItems_spec env n items : forall m c,
  val (acceptItems env n items m c)
  = match firstInvalid items with
    | Some err => inl err
    | None => inr (foldl (fun m t => bucketTask t m) m (acceptedTasks env c items))
    end
  /\ out (acceptItems env n items m c) = acceptEvents env n c items.
Proof.
  induction items as [|[|t|tag] items IH]; intros m c; cbn [acceptItems];
    try (split; reflexivity).
  rewrite !val_bind, !out_bind. cbn [emit taskErr val out clk].
  cbn [firstInvalid acceptedTasks acceptEvents].
  destruct (cancelledBy env t c).
  - rewrite val_bind, out_bind. cbn [emit val out clk].
    destruct (IH m (S c)) as [Hv Ho]. rewrite Hv, Ho. split; reflexivity.
  - destruct (IH (bucketTask t m) (S c)) as [Hv Ho]. rewrite Hv, Ho.
    split; [|reflexivity]. destruct (firstInvalid items); reflexivity.
Qed.

Lemma acceptedTasks_ids env items : forall c t,
  t ∈ acceptedTasks env c items -> ID t ∈ itemIDs items.
Proof.
  induction items as [|[|u|tag] items IH]; intros c t; cbn;
    try (intros H; inversion H; fail).
  destruct (cancelledBy env u c).
  - intros H. right. eapply IH, H.
  - intros H. inversion H; subst; [left | right; eapply IH; eassumption].
Qed.

Lemma acceptEvents_other env n id items : forall c,
  id ∉ itemIDs items -> filter (fun e => ofTask id e = true) (acceptEvents env n c items) = [].
Proof.
  induction items as [|[|u|tag] items IH]; intros c Hid; cbn [acceptEvents];
    try reflexivity.
  cbn [itemIDs] in Hid. apply not_elem_of_cons in Hid as [Hne Hid].
  rewrite filter_cons_False by (cbn; congruence).
  rewrite filter_app, IH by assumption. rewrite app_nil_r.
  destruct (cancelledBy env u c); [|reflexivity].
  rewrite filter_cons_False; [reflexivity|].
  cbn. rewrite bool_decide_eq_false_2 by congruence. congruence.
Qed.

Lemma itemIDs_app pre post : itemIDs (pre ++ post) = itemIDs pre ++ itemIDs post.
Proof.
  induction pre as [|[|u|tag] pre IH]; cbn; try assumption; [reflexivity|].
  rewrite IH. reflexivity.
Qed.

Section Skipped.
Variables (env : Env) (n : nat) (t : Task) (post : list Request).

(** The task [t], reached after the tasks of [pre], finds its token set. *)
Lemma skipped_events : forall pre c,
  allTasks pre ->
  NoDup (itemIDs (pre ++ ReqTask t :: post)) ->
  cancelledBy env t (c + length pre) = true ->
  filter (fun e => ofTask (ID t) e = true)
         (acceptEvents env n c (pre ++ ReqTask t :: post))
  = [EvClose (ID t)].
Proof.
  induction pre as [|r pre IH]; intros c Hpre Hnd Hc.
  - cbn [app length] in *. rewrite Nat.add_0_r in Hc.
    cbn [acceptEvents]. rewrite Hc. cbn in Hnd. apply NoDup_cons in Hnd as [Hid _].
    rewrite filter_cons_False by (cbn; congruence).
    cbn [app]. rewrite filter_cons_True by (cbn; apply bool_decide_eq_true_2; reflexivity).
    rewrite acceptEvents_other by assumption. reflexivity.
  - apply Forall_cons in Hpre as [[u ->] Hpre].
    cbn [app itemIDs] in Hnd. apply NoDup_cons in Hnd as [Hu Hnd].
    assert (Hne : ID u <> ID t).
    { intros Heq. apply Hu. rewrite itemIDs_app. apply elem_of_app. right.
      cbn. rewrite Heq. left. }
    cbn [app acceptEvents].
    rewrite filter_cons_False by (cbn; congruence).
    rewrite filter_app.
    assert (Hskip : filter (fun e => ofTask (ID t) e = true)
                      (if cancelledBy env u c then [EvClose (ID u)] else []) = []).
    { destruct (cancelledBy env u c); [|reflexivity].
      rewrite filter_cons_False; [reflexivity|].
      cbn. rewrite bool_decide_eq_false_2 by congruence. congruence. }
    rewrite Hskip. cbn [app]. apply IH; try assumption.
    cbn [length] in Hc. replace (S c + length pre)%nat with (c + S (length pre))%nat by lia.
    exact Hc.
Qed.

Lemma skipped_not_accepted : forall pre c,
  allTasks pre ->
  NoDup (itemIDs (pre ++ ReqTask t :: post)) ->
  cancelledBy env t (c + length pre) = true ->
  ID t ∉ ID <$> acceptedTasks env c (pre ++ ReqTask t :: post).
Proof.
  induction pre as [|r pre IH]; intros c Hpre Hnd Hc.
  - cbn [app length] in *. rewrite Nat.add_0_r in Hc.
    cbn [acceptedTasks]. rewrite Hc. cbn in Hnd. apply NoDup_cons in Hnd as [Hid _].
    intros Hin. apply list_elem_of_fmap in Hin as (u & Heq & Hu).
    apply acceptedTasks_ids in Hu. congruence.
  - apply Forall_cons in Hpre as [[u ->] Hpre].
    cbn [app itemIDs] in Hnd. apply NoDup_cons in Hnd as [Hu Hnd].
    assert (Hne : ID t <> ID u).
    { intros Heq. apply Hu. rewrite itemIDs_app. apply elem_of_app. right.
      cbn. rewrite Heq. left. }
    assert (Hrest : ID t ∉ ID <$> acceptedTasks env (S c) (pre ++ ReqTask t :: post)).
    { apply IH; try assumption.
      cbn [length] in Hc.
      replace (S c + length pre)%nat with (c + S (length pre))%nat by lia. exact Hc. }
    cbn [app acceptedTasks]. destruct (cancelledBy env u c); [exact Hrest|].
    rewrite fmap_cons. apply not_elem_of_cons. split; assumption.
Qed.
End Skipped.

(** ** The day buckets *)

Lemma Day_pos : 0 < Day.
Proof. reflexivity. Qed.

Lemma daysFrom_elem fuel : forall i through d,
  d ∈ daysFrom fuel i through
  <-> exists k : nat, (k < fuel)%nat /\ d = i + Z.of_nat k * Day /\ d < through.
Proof.
  pose proof Day_pos as HD.
  induction fuel as [|fuel IH]; intros i through d; cbn [daysFrom].
  - split; [intros H; inversion H | intros (k & Hk & _); lia].
  - case_bool_decide as Hi.
    + rewrite elem_of_cons, IH. split.
      * intros [->|(k & Hk & -> & Hlt)].
        -- exists 0%nat. repeat split; lia.
        -- exists (S k). repeat split; lia.
      * intros (k & Hk & -> & Hlt). destruct k as [|k].
        -- left. lia.
        -- right. exists k. repeat split; lia.
    + split; [intros H; inversion H|].
      intros (k & Hk & -> & Hlt). nia.
Qed.

Lemma daysFrom_NoDup fuel : forall i through, NoDup (daysFrom fuel i through).
Proof.
  pose proof Day_pos as HD.
  induction fuel as [|fuel IH]; intros i through; cbn [daysFrom]; [constructor|].
  case_bool_decide; [|constructor].
  constructor; [|apply IH].
  rewrite daysFrom_elem. intros (k & _ & Hk & _). nia.
Qed.

(** The loop visits every day [fromDay + k * Day] before [throughDay]: its
    bound on the number of passes is never the reason it stops. *)
Lemma spanDays_elem fromDay throughDay d :
  d ∈ spanDays fromDay throughDay
  <-> exists k : Z, 0 <= k /\ d = fromDay + k * Day /\ d < throughDay.
Proof.
  pose proof Day_pos as HD.
  unfold spanDays. rewrite daysFrom_elem. split.
  - intros (k & _ & -> & Hlt). exists (Z.of_nat k). repeat split; lia.
  - intros (k & Hk & -> & Hlt). exists (Z.to_nat k).
    rewrite Z2Nat.id by lia. repeat split; [|assumption].
    assert (k <= (throughDay - fromDay) `div` Day).
    { apply Z.div_le_lower_bound; lia. }
    lia.
Qed.

Lemma spanDays_NoDup fromDay throughDay : NoDup (spanDays fromDay throughDay).
Proof. apply daysFrom_NoDup. Qed.

Lemma taskDays_NoDup t : NoDup (taskDays t).
Proof.
  unfold taskDays. case_bool_decide; [|apply spanDays_NoDup].
  apply NoDup_singleton.
Qed.

Lemma mapAppend_lookup day task m d :
  mapAppend day task m !! d
  = if decide (d = day) then Some (default [] (m !! d) ++ [task]) else m !! d.
Proof.
  unfold mapAppend. destruct (decide (d = day)) as [->|Hne].
  - apply lookup_insert_eq.
  - apply lookup_insert_ne. congruence.
Qed.

Lemma foldl_mapAppend_lookup task ds : forall m d,
  NoDup ds ->
  foldl (fun m i => mapAppend i task m) m ds !! d
  = if decide (d ∈ ds) then Some (default [] (m !! d) ++ [task]) else m !! d.
Proof.
  induction ds as [|i ds IH]; intros m d Hnd; cbn [foldl].
  - destruct (decide (d ∈ [])) as [H|_]; [inversion H | reflexivity].
  - apply NoDup_cons in Hnd as [Hi Hnd]. rewrite IH by assumption.
    rewrite mapAppend_lookup.
    destruct (decide (d ∈ ds)) as [Hin|Hnin].
    + destruct (decide (d = i)) as [->|Hne]; [contradiction|].
      rewrite decide_True by (right; assumption). reflexivity.
    + destruct (decide (d = i)) as [->|Hne].
      * rewrite decide_True by left. reflexivity.
      * rewrite decide_False; [reflexivity|].
        intros H. apply elem_of_cons in H as [?|?]; contradiction.
Qed.

Lemma bucketTask_lookup t m d :
  bucketTask t m !! d
  = if decide (d ∈ taskDays t) then Some (default [] (m !! d) ++ [t]) else m !! d.
Proof.
  unfold bucketTask, taskDays, Bounds. case_bool_decide as Heq.
  - rewrite mapAppend_lookup.
    destruct (decide (d = fromDay t)) as [->|Hne].
    + rewrite decide_True by left. reflexivity.
    + rewrite decide_False; [reflexivity|].
      intros H. apply list_elem_of_singleton in H. contradiction.
  - apply foldl_mapAppend_lookup, spanDays_NoDup.
Qed.

Lemma foldl_bucketTask_lookup ts : forall m d,
  default [] (foldl (fun m t => bucketTask t m) m ts !! d)
  = default [] (m !! d) ++ bucketOf ts d.
Proof.
  unfold bucketOf.
  induction ts as [|t ts IH]; intros m d; cbn [foldl].
  - rewrite app_nil_r. reflexivity.
  - rewrite IH, bucketTask_lookup.
    destruct (decide (d ∈ taskDays t)) as [Hin|Hnin].
    + rewrite filter_cons_True by assumption. cbn. rewrite <- app_assoc. reflexivity.
    + rewrite filter_cons_False by assumption. reflexivity.
Qed.

Lemma foldl_bucketTask_dom ts : forall m d b,
  foldl (fun m t => bucketTask t m) m ts !! d = Some b ->
  b = default [] (m !! d) ++ bucketOf ts d.
Proof.
  intros m d b H. rewrite <- foldl_bucketTask_lookup, H. reflexivity.
Qed.

Lemma foldl_bucketTask_some ts : forall m d t,
  t ∈ ts -> d ∈ taskDays t ->
  is_Some (foldl (fun m t => bucketTask t m) m ts !! d).
Proof.
  induction ts as [|u ts IH]; intros m d t Hin Hd; [inversion Hin|].
  cbn [foldl]. apply elem_of_cons in Hin as [->|Hin].
  - assert (Hs : is_Some (bucketTask u m !! d)).
    { rewrite bucketTask_lookup, decide_True by assumption. eauto. }
    clear IH Hd. revert Hs. generalize (bucketTask u m). clear m.
    induction ts as [|v ts IH]; intros m Hs; cbn [foldl]; [exact Hs|].
    apply IH. rewrite bucketTask_lookup.
    destruct (decide (d ∈ taskDays v)); [eauto | exact Hs].
  - eapply IH; eassumption.
Qed.

(** ** The order of a [range] *)

Lemma insertAt_Permutation {A} (x : A) : forall n l, insertAt n x l ≡ₚ x :: l.
Proof.
  induction n as [|n IH]; intros [|y l]; cbn; try reflexivity.
  rewrite IH. apply Permutation_swap.
Qed.

Lemma rangeOrder_Permutation {A} : forall (l : list A) seeds, rangeOrder seeds l ≡ₚ l.
Proof.
  induction l as [|x l IH]; intros seeds; cbn; [reflexivity|].
  rewrite insertAt_Permutation, IH. reflexivity.
Qed.

(** ** The loop over the day buckets *)

Lemma dayLoop_cons env ctx day bucket rest c :
  let r := processDay env ctx day bucket c in
  let r' := dayLoop env ctx rest (clk r) in
  dayLoop env ctx ((day, bucket) :: rest) c
  = mkRes ((day, val r) :: val r') (out r ++ out r') (clk r').
Proof.
  cbn zeta. cbn [dayLoop]. unfold bind. cbn [ret val out clk].
  rewrite app_nil_r. reflexivity.
Qed.

Lemma dayLoop_app env ctx pre : forall post c,
  let r := dayLoop env ctx pre c in
  let r' := dayLoop env ctx post (clk r) in
  dayLoop env ctx (pre ++ post) c
  = mkRes (val r ++ val r') (out r ++ out r') (clk r').
Proof.
  induction pre as [|[d b] pre IH]; intros post c; cbn zeta.
  - cbn [app dayLoop ret val out clk]. destruct (dayLoop env ctx post c); reflexivity.
  - cbn [app]. rewrite !dayLoop_cons. cbn [val out clk]. rewrite IH.
    cbn [val out clk]. rewrite <- app_assoc. reflexivity.
Qed.

Lemma entryIDs_elem entries i :
  i ∈ entryIDs entries <-> exists d b t, (d, b) ∈ entries /\ t ∈ b /\ i = ID t.
Proof.
  unfold entryIDs. rewrite list_elem_of_bind. split.
  - intros ([d b] & Hi & He). apply list_elem_of_fmap in Hi as (t & -> & Ht). eauto 6.
  - intros (d & b & t & He & Ht & ->). exists (d, b). split; [|assumption].
    apply list_elem_of_fmap. eauto.
Qed.

Lemma dayLoop_events env ctx entries : forall c,
  Forall (mentionsOnly (entryIDs entries)) (out (dayLoop env ctx entries c)).
Proof.
  induction entries as [|[d b] entries IH]; intros c; [constructor|].
  rewrite dayLoop_cons. cbn [out]. apply Forall_app. split.
  - eapply Forall_mentionsOnly_mono; [|apply processDay_events].
    intros i Hi. unfold entryIDs. cbn. apply elem_of_app. left. exact Hi.
  - eapply Forall_mentionsOnly_mono; [|apply IH].
    intros i Hi. unfold entryIDs. cbn. apply elem_of_app. right. exact Hi.
Qed.

Lemma dayLoop_val_elem env ctx entries : forall c d b' t,
  (d, b') ∈ val (dayLoop env ctx entries c) -> t ∈ b' ->
  exists b, (d, b) ∈ entries /\ t ∈ b.
Proof.
  induction entries as [|[d0 b0] entries IH]; intros c d b' t Hin Ht.
  - inversion Hin.
  - rewrite dayLoop_cons in Hin. cbn [val] in Hin.
    apply elem_of_cons in Hin as [[= -> ->]|Hin].
    + exists b0. split; [left|]. eapply processDay_val_elem, Ht.
    + destruct (IH _ _ _ _ Hin Ht) as (b & Hb & Htb). exists b. split; [right|]; assumption.
Qed.

Lemma dayLoop_val_keeps env ctx entries : forall c d b t,
  cancelledAt env (ID t) = None ->
  (d, b) ∈ entries -> t ∈ b ->
  exists b', (d, b') ∈ val (dayLoop env ctx entries c) /\ t ∈ b'.
Proof.
  induction entries as [|[d0 b0] entries IH]; intros c d b t Hn Hin Ht.
  - inversion Hin.
  - rewrite dayLoop_cons. cbn [val].
    apply elem_of_cons in Hin as [[= -> ->]|Hin].
    + eexists. split; [left|]. apply processDay_val_keeps; assumption.
    + destruct (IH (clk (processDay env ctx d0 b0 c)) _ _ _ Hn Hin Ht) as (b' & Hb & Htb).
      exists b'. split; [right|]; assumption.
Qed.

(** ** One pass over a batch *)

Lemma processBatch_empty env newIdx c :
  processBatch env [] newIdx c = mkRes (Continue newIdx) [EvRelease 0] c.
Proof. reflexivity. Qed.

Lemma processBatch_invalid env items newIdx c err :
  items <> [] -> firstInvalid items = Some err ->
  val (processBatch env items newIdx c) = Return err
  /\ out (processBatch env items newIdx c)
     = EvAddDequeuedTasks (length items) :: acceptEvents env (length items) c items.
Proof.
  intros Hne Hinv. unfold processBatch.
  rewrite bool_decide_eq_false_2 by (destruct items; [congruence | cbn; lia]).
  rewrite !val_bind, !out_bind. cbn [emit val out clk].
  destruct (acceptItems_spec env (length items) items ∅ c) as [Hv Ho].
  rewrite Hv, Ho, Hinv. cbn [ret val out]. rewrite app_nil_r. split; reflexivity.
Qed.

Lemma processBatch_valid env items newIdx c :
  items <> [] -> firstInvalid items = None ->
  let n := length items in
  let c1 := clk (acceptItems env n items ∅ c) in
  let days := dayLoop env Background (dayEntries env c items) c1 in
  val (processBatch env items newIdx c) = Continue newIdx
  /\ out (processBatch env items newIdx c)
     = EvAddDequeuedTasks n :: acceptEvents env n c items
       ++ out days
       ++ closeEvents (rangeOrder (closeRangeOrder env) (val days))
       ++ [EvRelease n].
Proof.
  intros Hne Hinv. cbn zeta. unfold processBatch.
  rewrite bool_decide_eq_false_2 by (destruct items; [congruence | cbn; lia]).
  rewrite !val_bind, !out_bind. cbn [emit val out clk].
  destruct (acceptItems_spec env (length items) items ∅ c) as [Hv Ho].
  rewrite Hv, Ho, Hinv.
  rewrite !val_bind, !out_bind. rewrite closeLoop_spec. cbn [emit ret val out clk].
  split; [reflexivity|]. unfold dayEntries, closeEvents. cbn [app].
  reflexivity.
Qed.

Lemma dayEntries_elem env c items d b :
  (d, b) ∈ dayEntries env c items ->
  b = bucketOf (acceptedTasks env c items) d.
Proof.
  unfold dayEntries. rewrite rangeOrder_Permutation, elem_of_map_to_list.
  intros H. apply foldl_bucketTask_dom in H. rewrite lookup_empty in H. exact H.
Qed.

Lemma dayEntries_has env c items d t :
  t ∈ acceptedTasks env c items -> d ∈ taskDays t ->
  (d, bucketOf (acceptedTasks env c items) d) ∈ dayEntries env c items.
Proof.
  intros Ht Hd. unfold dayEntries. rewrite rangeOrder_Permutation, elem_of_map_to_list.
  destruct (foldl_bucketTask_some (acceptedTasks env c items) ∅ d t Ht Hd) as [b Hb].
  rewrite Hb. f_equal. apply foldl_bucketTask_dom in Hb.
  rewrite lookup_empty in Hb. exact Hb.
Qed.

(** ** Counting the events of a task *)

Lemma count_app p tr tr' : count p (tr ++ tr') = (count p tr + count p tr')%nat.
Proof. unfold count. rewrite filter_app, length_app. reflexivity. Qed.

Lemma count_zero p tr : Forall (fun e => p e = false) tr -> count p tr = 0%nat.
Proof.
  unfold count. induction 1 as [|e tr He _ IH]; [reflexivity|].
  rewrite filter_cons_False by congruence. exact IH.
Qed.

Lemma errEvents_no_output id err ts : count (isSendRes id) (errEvents err ts) = 0%nat.
Proof.
  apply count_zero. unfold errEvents. apply Forall_fmap, Forall_forall.
  intros t _. reflexivity.
Qed.

Lemma passEvents_no_error id ts : count (isSendErr id) (passEvents ts) = 0%nat.
Proof.
  apply count_zero, Forall_forall. intros e He. unfold passEvents in He.
  apply list_elem_of_bind in He as (t & He & _).
  apply list_elem_of_fmap in He as (fp & -> & _). reflexivity.
Qed.

(** ** The block query driver *)

Lemma blockCallback_queryEvents env ctx day pts bq mn mx c :
  Forall queryEvent (out (blockCallback env ctx day pts bq mn mx c)).
Proof.
  unfold blockCallback. destruct (findGroup pts mn mx) as [pt|]; [|constructor].
  unfold processBlock.
  destruct (bqSchema bq); [constructor|].
  destruct (ctxErr ctx); [constructor|].
  rewrite out_bind, checkTasks_out. cbn [app].
  destruct (val (checkTasks env (tasks pt) c)); [constructor|].
  unfold Run. destruct (bqFailure bq) as [[k e]|]; cbn [out];
    (constructor; [exact I|]); apply Forall_fmap, Forall_forall; intros r _; exact I.
Qed.

Lemma checkTasks_cancelled env : forall ts c k t,
  ts !! k = Some t -> cancelledBy env t (c + k) = true ->
  checkTasks env ts c = mkRes (Some ErrContextCanceled) [] (clk (checkTasks env ts c)).
Proof.
  induction ts as [|u ts IH]; intros c k t Hk Hc; [discriminate|].
  cbn [checkTasks]. unfold bind. cbn [taskErr val out clk].
  destruct (cancelledBy env u c) eqn:Hu; [reflexivity|].
  destruct k as [|k].
  - cbn in Hk. injection Hk as ->. rewrite Nat.add_0_r in Hc. congruence.
  - cbn in Hk. rewrite (IH (S c) k t Hk) by (rewrite <- Hc; f_equal; lia).
    reflexivity.
Qed.

Lemma processBlock_cancelled env bq day ts c n k t :
  bqSchema bq = inr n ->
  ts !! k = Some t -> cancelledBy env t (c + k) = true ->
  val (processBlock env Background bq day ts c) = Some ErrContextCanceled
  /\ out (processBlock env Background bq day ts c) = [].
Proof.
  intros Hs Hk Hc. unfold processBlock. rewrite Hs. cbn [ctxErr].
  rewrite val_bind, out_bind, (checkTasks_cancelled env ts c k t Hk Hc).
  cbn [val out clk ret]. split; reflexivity.
Qed.

Lemma Fetch_app cb done : forall more c,
  val (Fetch done cb c) = None ->
  let r := Fetch done cb c in
  let r' := Fetch more cb (clk r) in
  Fetch (done ++ more) cb c = mkRes (val r') (out r ++ out r') (clk r').
Proof.
  induction done as [|[bq mn mx|e] done IH]; intros more c Hnone; cbn zeta.
  - cbn [app Fetch ret val out clk]. destruct (Fetch more cb c); reflexivity.
  - cbn [app Fetch] in *. unfold bind in *. cbn [val out clk] in *.
    destruct (val (cb bq mn mx c)) eqn:Hcb; [discriminate|].
    rewrite (IH more _ Hnone). cbn [val out clk]. rewrite app_assoc. reflexivity.
  - discriminate.
Qed.

(** * The claims *)

(** ** Day buckets *)

(** C4. A day bucket for which the store returns no block ref: once the
    cancelled tasks are removed ([survivors] is what [DeleteFunc] returns,
    see [DeleteFunc_spec]), the day's events are the store call followed by
    one Output per surviving task and fingerprint ref, carrying that
    fingerprint and no removal, in order.  Nothing else happens for that day:
    no error is sent, nothing is fetched, no query runs. *)
Theorem C4_no_blocks_pass_through env ctx day bucket c t0 rest :
  survivors env c bucket = t0 :: rest ->
  getBlockRefs env (Tenant t0) (toModelTime day) (toModelTime (day + Day + -1 * 1)) = inr [] ->
  out (processDay env ctx day bucket c)
  = EvGetBlockRefs (Tenant t0) (toModelTime day) (toModelTime (day + Day + -1 * 1))
    :: ((t0 :: rest) ≫= (fun t => (fun fp => EvSendRes (ID t) (mkOutput fp [])) <$> Refs t)).
Proof.
  intros Hs Hrefs.
  destruct (processDay_spec env ctx day bucket c) as [_ Hout].
  rewrite Hout, Hs, processTasks_out. unfold dayWork, dayError.
  rewrite Hrefs, app_nil_r. reflexivity.
Qed.

Lemma C4_no_blocks_pass_through_witness :
  out (processDay (envQuiet noBlocks) Background D0 [taskA; taskB] 0%nat)
  = [EvGetBlockRefs "tenant-a" 0 86399999;
     EvSendRes 1 (mkOutput 10 []); EvSendRes 1 (mkOutput 20 []);
     EvSendRes 2 (mkOutput 10 []); EvSendRes 2 (mkOutput 20 [])].
Proof.
  exact (C4_no_blocks_pass_through (envQuiet noBlocks) Background D0
           [taskA; taskB] 0%nat taskA [taskB] eq_refl eq_refl).
Defined.

(** C10. Every call to the store made for a day bucket names the tenant of
    the first task left after the cancelled ones are removed ([tasks[0]] of
    the source): the day starts with [GetBlockRefs] for that tenant; when
    that returns block refs, all the tasks left in the bucket, whatever their
    tenants, are partitioned over them and the blocks are fetched for that
    same tenant; no other store call is made. *)
Theorem C10_store_calls_use_first_tenant env ctx day bucket c t0 rest :
  survivors env c bucket = t0 :: rest ->
  let from := toModelTime day in
  let through := toModelTime (day + Day + -1 * 1) in
  let tr := out (processDay env ctx day bucket c) in
  (exists tl, tr = EvGetBlockRefs (Tenant t0) from through :: tl)
  /\ (forall b brs,
         getBlockRefs env (Tenant t0) from through = inr (b :: brs) ->
         exists tl,
           tr = EvGetBlockRefs (Tenant t0) from through
                :: EvFetch (Tenant t0)
                     (blockRef <$> partitionFingerprintRange (t0 :: rest) (b :: brs))
                :: tl)
  /\ (forall e, e ∈ tr ->
         match e with
         | EvGetBlockRefs tenant _ _ | EvFetch tenant _ => tenant = Tenant t0
         | _ => True
         end).
Proof.
  intros Hs. cbn zeta.
  destruct (processDay_spec env ctx day bucket c) as [_ Hout].
  rewrite Hout, Hs, processTasks_out. split; [unfold dayWork; eauto|]. split.
  { intros b brs Hrefs. unfold dayWork. rewrite Hrefs. cbn zeta.
    rewrite processBlocksWithCallback_out. cbn [app]. eauto. }
  intros e He. apply elem_of_app in He as [He|He].
  - unfold dayWork in He. apply elem_of_cons in He as [->|He]; [reflexivity|].
    destruct (getBlockRefs env (Tenant t0) _ _) as [err|[|b brs]].
    + inversion He.
    + unfold passEvents in He. apply list_elem_of_bind in He as (t & He & _).
      apply list_elem_of_fmap in He as (fp & -> & _). exact I.
    + cbn zeta in He. apply elem_of_app in He as [He|He].
      2:{ destruct (val _); [|inversion He].
          apply list_elem_of_singleton in He. subst e. exact I. }
      rewrite processBlocksWithCallback_out in He.
      apply elem_of_cons in He as [->|He]; [reflexivity|].
      match type of He with
      | _ ∈ out (Fetch ?steps (blockCallback _ _ _ ?pts) ?k) =>
          pose proof (Fetch_events queryEvent _ steps
                        (blockCallback_queryEvents env ctx day pts) k) as Hq
      end.
      rewrite Forall_forall in Hq. specialize (Hq e He).
      destruct e; cbn in Hq; try contradiction; exact I.
  - destruct (dayError _ _ _ _ _ _); [|inversion He].
    unfold errEvents in He. apply list_elem_of_fmap in He as (t & -> & _). exact I.
Qed.

Lemma C10_store_calls_use_first_tenant_witness :
  let tr := out (processDay (envQuiet oneBlock) Background D0 [taskA; taskOther] 0%nat) in
  Tenant taskA = "tenant-a" /\ Tenant taskOther = "tenant-b"
  /\ tr = [EvGetBlockRefs "tenant-a" 0 86399999;
           EvFetch "tenant-a" [mkBlockRef 0 100];
           EvQueryRun [(1%nat, 10); (1%nat, 20); (2%nat, 30)];
           EvSendRes 1 (mkOutput 10 []); EvSendRes 1 (mkOutput 20 []);
           EvSendRes 2 (mkOutput 30 [])]
  /\ (forall e, e ∈ tr ->
         match e with
         | EvGetBlockRefs tenant _ _ | EvFetch tenant _ => tenant = "tenant-a"
         | _ => True
         end).
Proof.
  split; [reflexivity|]. split; [reflexivity|]. split; [vm_compute; reflexivity|].
  exact (proj2 (proj2 (C10_store_calls_use_first_tenant (envQuiet oneBlock) Background D0
                         [taskA; taskOther] 0%nat taskA [taskOther] eq_refl))).
Defined.

(** C5. A day bucket whose block-ref resolution or block processing fails
    with [err]: the day's events are its work up to the failure followed by
    [err] sent once to every task left in the bucket after the cancelled
    ones are removed, and nothing more.  The buckets enumerated before it
    and after it are processed by the same loop, whatever happened to this
    one. *)
Theorem C5_day_failure_is_isolated env ctx before after day bucket c t0 rest err :
  let c1 := clk (dayLoop env ctx before c) in
  let ts := survivors env c1 bucket in
  let c2 := (c1 + length bucket)%nat in
  ts = t0 :: rest ->
  dayError env ctx day ts (Tenant t0) c2 = Some err ->
  out (dayLoop env ctx (before ++ (day, bucket) :: after) c)
  = out (dayLoop env ctx before c)
    ++ (dayWork env ctx day ts (Tenant t0) c2 ++ ((fun t => EvSendErr (ID t) err) <$> ts))
    ++ out (dayLoop env ctx after (clk (processDay env ctx day bucket c1))).
Proof.
  cbn zeta. intros Hs Herr.
  rewrite dayLoop_app. cbn [out]. rewrite dayLoop_cons. cbn [out]. f_equal. f_equal.
  destruct (processDay_spec env ctx day bucket (clk (dayLoop env ctx before c))) as [_ Hout].
  rewrite Hout, Hs, processTasks_out. rewrite <- Hs, Herr. reflexivity.
Qed.

Lemma C5_day_failure_is_isolated_witness :
  out (dayLoop (envQuiet failsAfterD0) Background
         ([(D0, [taskA])] ++ (D1, [taskB; taskTwoDays]) :: [(D0, [taskB])]) 0%nat)
  = [EvGetBlockRefs "tenant-a" 0 86399999;
     EvSendRes 1 (mkOutput 10 []); EvSendRes 1 (mkOutput 20 [])]
    ++ ([EvGetBlockRefs "tenant-a" 86400000 172799999]
        ++ [EvSendErr 2 (ErrExternal 7); EvSendErr 1 (ErrExternal 7)])
    ++ [EvGetBlockRefs "tenant-a" 0 86399999;
        EvSendRes 2 (mkOutput 10 []); EvSendRes 2 (mkOutput 20 [])].
Proof.
  exact (C5_day_failure_is_isolated (envQuiet failsAfterD0) Background
           [(D0, [taskA])] [(D0, [taskB])] D1 [taskB; taskTwoDays] 0%nat
           taskB [taskTwoDays] (ErrExternal 7) eq_refl eq_refl).
Defined.

(** ** Cancellation before a block query *)

(** C3, as stated, fails: task 1 and task 2 share a day and a block; the
    token of task 1 fires after the day's compaction and before the check
    that precedes the query.  Task 2, whose token never fires, is sent the
    cancellation error and no Output; with no token firing it is sent its
    two Outputs. *)
Lemma C3_counterexample :
  cancelledAt (envCancel1 4 oneBlock) (ID taskB) = None
  /\ events (ID taskB)
       (out (processBatch (envCancel1 4 oneBlock) [ReqTask taskA; ReqTask taskB] 7 0%nat))
     = [EvSendErr 2 ErrContextCanceled; EvClose 2]
  /\ events (ID taskB)
       (out (processBatch (envQuiet oneBlock) [ReqTask taskA; ReqTask taskB] 7 0%nat))
     = [EvSendRes 2 (mkOutput 10 []); EvSendRes 2 (mkOutput 20 []); EvClose 2].
Proof. repeat split; vm_compute; reflexivity. Qed.

(** C3, amended.  The store delivers the blocks [done], whose callbacks
    succeed, and then a block whose group holds a task with its token set at
    the check before the query (the schema was read; the shared context is
    the background context, never cancelled).  That block's query does not
    run and no further block is processed; the cancellation error fails the
    day: it is logged and sent to every task left in the bucket, cancelled or
    not.  The Outputs of the blocks of [done] stand. *)
Theorem C3_cancellation_fails_the_day
    env day bucket c t0 rest b brs done bq mn mx more pt n k t :
  let ts := survivors env c bucket in
  let c' := (c + length bucket)%nat in
  let from := toModelTime day in
  let through := toModelTime (day + Day + -1 * 1) in
  let pts := partitionFingerprintRange ts (b :: brs) in
  let callback := blockCallback env Background day pts in
  ts = t0 :: rest ->
  getBlockRefs env (Tenant t0) from through = inr (b :: brs) ->
  fetchScript env (Tenant t0) (blockRef <$> pts) = done ++ FetchBlock bq mn mx :: more ->
  val (Fetch done callback c') = None ->
  findGroup pts mn mx = Some pt ->
  bqSchema bq = inr n ->
  tasks pt !! k = Some t ->
  cancelledBy env t (clk (Fetch done callback c') + k) = true ->
  out (processDay env Background day bucket c)
  = EvGetBlockRefs (Tenant t0) from through
    :: EvFetch (Tenant t0) (blockRef <$> pts)
    :: out (Fetch done callback c')
    ++ EvLogError "processed with an error"
    :: ((fun u => EvSendErr (ID u) ErrContextCanceled) <$> ts).
Proof.
  cbn zeta. intros Hs Hrefs Hscript Hdone Hgroup Hschema Hk Hc.
  destruct (processDay_spec env Background day bucket c) as [_ Hout].
  rewrite Hout, Hs, processTasks_out. rewrite <- Hs.
  unfold dayWork, dayError. rewrite Hrefs.
  set (pts := partitionFingerprintRange (survivors env c bucket) (b :: brs)) in *.
  set (callback := blockCallback env Background day pts) in *.
  assert (Hfetch : Fetch (fetchScript env (Tenant t0) (blockRef <$> pts)) callback
                         (c + length bucket)%nat
                   = mkRes (Some ErrContextCanceled)
                       (out (Fetch done callback (c + length bucket)%nat))
                       (clk (callback bq mn mx
                               (clk (Fetch done callback (c + length bucket)%nat))))).
  { rewrite Hscript, Fetch_app by exact Hdone.
    cbn [Fetch]. unfold bind. cbn [val out clk].
    assert (Hcb : val (callback bq mn mx (clk (Fetch done callback (c + length bucket)%nat)))
                  = Some ErrContextCanceled
                  /\ out (callback bq mn mx (clk (Fetch done callback (c + length bucket)%nat)))
                     = []).
    { unfold callback, blockCallback. rewrite Hgroup.
      eapply processBlock_cancelled; eassumption. }
    destruct Hcb as [Hv Ho]. rewrite Hv, Ho. cbn [ret val out clk].
    rewrite !app_nil_r. reflexivity. }
  cbn zeta. rewrite processBlocksWithCallback_out.
  unfold processBlocksWithCallback. rewrite val_bind. cbn [emit val clk].
  fold callback. rewrite Hfetch. cbn [val out app].
  rewrite <- app_assoc. reflexivity.
Qed.

Lemma C3_cancellation_fails_the_day_witness :
  out (processDay (envCancel1 4 oneBlock) Background D0 [taskA; taskB] 2%nat)
  = EvGetBlockRefs "tenant-a" 0 86399999
    :: EvFetch "tenant-a" [mkBlockRef 0 100]
    :: [] ++ [EvLogError "processed with an error";
              EvSendErr 1 ErrContextCanceled; EvSendErr 2 ErrContextCanceled].
Proof.
  exact (C3_cancellation_fails_the_day (envCancel1 4 oneBlock) D0 [taskA; taskB] 2%nat
           taskA [taskB] (mkBlockRef 0 100) [] [] keepAll 0 100 []
           (mkBounded (mkBlockRef 0 100) [taskA; taskB]) 4%nat 0%nat taskA
           eq_refl eq_refl eq_refl eq_refl eq_refl eq_refl eq_refl eq_refl).
Defined.

(** ** Outputs and errors of one task *)

(** C2, as stated, fails: a task that spans two days, the store has no block
    for the first day and fails for the second.  The task is sent the
    Outputs of the first day and the error of the second.  It fails within
    one day too: of two blocks, the query of the first answers and the query
    of the second fails; the task is sent an Output, then the error. *)
Lemma C2_counterexample :
  let tr := out (processBatch (envQuiet failsAfterD0) [ReqTask taskTwoDays] 7 0%nat) in
  let tr' := out (processBatch envTwoBlocks [ReqTask taskA] 7 0%nat) in
  taskDays taskTwoDays = [D0; D1]
  /\ count (isSendRes (ID taskTwoDays)) tr = 2%nat
  /\ count (isSendErr (ID taskTwoDays)) tr = 1%nat
  /\ taskDays taskA = [D0]
  /\ events (ID taskA) tr'
     = [EvSendRes 1 (mkOutput 10 []); EvSendErr 1 (ErrExternal 9); EvClose 1].
Proof. repeat split; vm_compute; reflexivity. Qed.

(** C2, amended.  Within the processing of one day bucket for which no block
    is queried (the block-ref resolution fails, or returns no block ref), no
    task is sent both an Output and an error. *)
Theorem C2_exclusive_within_a_day_without_blocks env ctx day bucket c id :
  (forall t0 rest brs,
      survivors env c bucket = t0 :: rest ->
      getBlockRefs env (Tenant t0) (toModelTime day) (toModelTime (day + Day + -1 * 1))
      = inr brs ->
      brs = []) ->
  count (isSendRes id) (out (processDay env ctx day bucket c)) = 0%nat
  \/ count (isSendErr id) (out (processDay env ctx day bucket c)) = 0%nat.
Proof.
  intros Hnoblocks.
  destruct (processDay_spec env ctx day bucket c) as [_ Hout]. rewrite Hout.
  destruct (survivors env c bucket) as [|t0 rest] eqn:Hs; [left; reflexivity|].
  rewrite processTasks_out. unfold dayWork, dayError.
  destruct (getBlockRefs env (Tenant t0) _ _) as [err|brs] eqn:Hrefs.
  - left. cbn [app]. change (?x :: ?l) with ([x] ++ l).
    rewrite count_app, errEvents_no_output. reflexivity.
  - rewrite (Hnoblocks t0 rest brs eq_refl Hrefs). right.
    rewrite app_nil_r. change (?x :: ?l) with ([x] ++ l).
    rewrite count_app, passEvents_no_error. reflexivity.
Qed.

Lemma C2_exclusive_within_a_day_without_blocks_witness :
  count (isSendRes 1) (out (processDay (envQuiet failsAfterD0) Background D1 [taskTwoDays] 0%nat))
  = 0%nat
  \/ count (isSendErr 1) (out (processDay (envQuiet failsAfterD0) Background D1 [taskTwoDays] 0%nat))
     = 0%nat.
Proof.
  apply (C2_exclusive_within_a_day_without_blocks (envQuiet failsAfterD0) Background D1
           [taskTwoDays] 0%nat 1%nat).
  intros t0 rest brs Hs. injection Hs as <- <-. vm_compute. discriminate.
Defined.

(** ** Closing the accepted tasks *)

(** C1 fails on this batch: task 1 and task 2 concern the same day; the
    token of task 1 fires after the dequeue loop has accepted it and before
    the day loop looks at it.  The compaction writes task 2 over task 1 in
    the array that the map entry shares, the closing loop closes task 2
    twice, and task 1 is sent nothing and is never closed. *)
Theorem C1_task_cancelled_after_acceptance_is_never_closed :
  let env := envCancel1 1 noBlocks in
  let r := processBatch env [ReqTask taskA; ReqTask taskB] 7 0%nat in
  acceptedTasks env 0 [ReqTask taskA; ReqTask taskB] = [taskA; taskB]
  /\ val r = Continue 7
  /\ val (processDay env Background D0 [taskA; taskB] 2%nat) = [taskB; taskB]
  /\ events (ID taskA) (out r) = []
  /\ events (ID taskB) (out r)
     = [EvSendRes 2 (mkOutput 10 []); EvSendRes 2 (mkOutput 20 []); EvClose 2; EvClose 2].
Proof. repeat split; vm_compute; reflexivity. Qed.

(** ** Tasks cancelled while they waited in the queue *)

Lemma events_nil id tr :
  (forall e, e ∈ tr -> ofTask id e = false) -> events id tr = [].
Proof.
  unfold events. induction tr as [|e tr IH]; intros H; [reflexivity|].
  rewrite filter_cons_False.
  - apply IH. intros e' He'. apply H. right. exact He'.
  - rewrite (H e) by left. discriminate.
Qed.

Lemma events_none_mentions ids id tr :
  Forall (mentionsOnly ids) tr -> id ∉ ids -> events id tr = [].
Proof.
  intros Hall Hid. apply events_nil. intros e He.
  rewrite Forall_forall in Hall. specialize (Hall e He).
  destruct e; cbn in *; try reflexivity; try contradiction;
    apply bool_decide_eq_false_2; congruence.
Qed.

Lemma closeEvents_elem entries e :
  e ∈ closeEvents entries <-> exists d b t, (d, b) ∈ entries /\ t ∈ b /\ e = EvClose (ID t).
Proof.
  unfold closeEvents. rewrite list_elem_of_bind. split.
  - intros ([d b] & He & Hdb). apply list_elem_of_fmap in He as (t & -> & Ht). eauto 6.
  - intros (d & b & t & Hdb & Ht & ->). exists (d, b). split; [|assumption].
    apply list_elem_of_fmap. eauto.
Qed.

Lemma events_none_closes entries id :
  id ∉ entryIDs entries -> events id (closeEvents entries) = [].
Proof.
  intros Hid. apply events_nil. intros e He.
  apply closeEvents_elem in He as (d & b & t & Hdb & Ht & ->). cbn.
  apply bool_decide_eq_false_2. intros Heq. apply Hid.
  apply entryIDs_elem. eauto 6.
Qed.

Lemma dayEntries_ids env c items i :
  i ∈ entryIDs (dayEntries env c items) -> i ∈ ID <$> acceptedTasks env c items.
Proof.
  rewrite entryIDs_elem. intros (d & b & t & Hdb & Ht & ->).
  apply dayEntries_elem in Hdb. subst b. unfold bucketOf in Ht.
  apply list_elem_of_filter in Ht as [_ Ht]. apply list_elem_of_fmap. eauto.
Qed.

Lemma closed_ids env ctx seeds entries c i :
  i ∈ entryIDs (rangeOrder seeds (val (dayLoop env ctx entries c))) ->
  i ∈ entryIDs entries.
Proof.
  rewrite !entryIDs_elem. intros (d & b' & t & Hdb & Ht & ->).
  rewrite rangeOrder_Permutation in Hdb.
  destruct (dayLoop_val_elem env ctx entries c d b' t Hdb Ht) as (b & Hb & Htb).
  eauto 6.
Qed.

(** C7, as stated, fails: the token of task 1 is set before the batch is
    dequeued.  The worker closes the task and sends nothing on its error
    channel. *)
Lemma C7_counterexample :
  let env := envCancel1 0 oneBlock in
  let tr := out (processBatch env [ReqTask taskA; ReqTask taskB] 7 0%nat) in
  cancelledBy env taskA 0 = true
  /\ events (ID taskA) tr = [EvClose 1]
  /\ count (isSendErr (ID taskA)) tr = 0%nat.
Proof. repeat split; vm_compute; reflexivity. Qed.

(** C7, amended.  A task of the batch, reached after the tasks [pre], whose
    token is set when the dequeue loop looks at it (identities are unique in
    the batch): over the whole pass the worker calls its [Close] once and
    sends it neither an Output nor an error; no query run has a request of
    it; it is in no day bucket, hence in no group that
    [partitionFingerprintRange] builds from tasks of a bucket. *)
Theorem C7_cancelled_in_queue_is_closed_and_skipped env pre t post newIdx c :
  let items := pre ++ ReqTask t :: post in
  let tr := out (processBatch env items newIdx c) in
  allTasks pre ->
  NoDup (itemIDs items) ->
  cancelledBy env t (c + length pre) = true ->
  events (ID t) tr = [EvClose (ID t)]
  /\ (forall reqs r, EvQueryRun reqs ∈ tr -> r ∈ reqs -> r.1 <> ID t)
  /\ (forall d b u, (d, b) ∈ dayEntries env c items -> u ∈ b -> ID u <> ID t)
  /\ (forall d b ts brs pt u,
         (d, b) ∈ dayEntries env c items -> (forall x, x ∈ ts -> x ∈ b) ->
         pt ∈ partitionFingerprintRange ts brs -> u ∈ tasks pt -> ID u <> ID t).
Proof.
  cbn zeta. intros Hpre Hnd Hc.
  set (items := pre ++ ReqTask t :: post) in *.
  pose proof (skipped_events env (length items) t post pre c Hpre Hnd Hc) as Hacc.
  pose proof (skipped_not_accepted env t post pre c Hpre Hnd Hc) as Hnot.
  fold items in Hacc, Hnot.
  assert (Hne : items <> []) by (unfold items; destruct pre; discriminate).
  assert (Hentries : ID t ∉ entryIDs (dayEntries env c items)).
  { intros Hin. apply Hnot. apply dayEntries_ids, Hin. }
  assert (Hbucket : forall d b u, (d, b) ∈ dayEntries env c items -> u ∈ b -> ID u <> ID t).
  { intros d b u Hdb Hu Heq. apply Hentries. apply entryIDs_elem. eauto 6. }
  assert (Hgroups : forall d b ts brs pt u,
             (d, b) ∈ dayEntries env c items -> (forall x, x ∈ ts -> x ∈ b) ->
             pt ∈ partitionFingerprintRange ts brs -> u ∈ tasks pt -> ID u <> ID t).
  { intros d b ts brs pt u Hdb Hsub Hpt Hu.
    pose proof (partition_ids ts brs pt u Hpt Hu) as Hid.
    apply list_elem_of_fmap in Hid as (x & -> & Hx). eapply Hbucket; eauto. }
  destruct (firstInvalid items) as [err|] eqn:Hinv.
  - destruct (processBatch_invalid env items newIdx c err Hne Hinv) as [_ Hout].
    rewrite Hout. refine (conj _ (conj _ (conj Hbucket Hgroups))).
    + unfold events in *. rewrite filter_cons_False by (cbn; congruence). exact Hacc.
    + intros reqs r Hin _. exfalso.
      apply elem_of_cons in Hin as [Hin|Hin]; [discriminate|].
      clear - Hin. revert c Hin. generalize (length items) as n.
      induction items as [|[|u|tag] items IH]; intros n c Hin; cbn in Hin.
      * inversion Hin.
      * apply list_elem_of_singleton in Hin. discriminate.
      * apply elem_of_cons in Hin as [Hin|Hin]; [discriminate|].
        apply elem_of_app in Hin as [Hin|Hin]; [|eapply IH, Hin].
        destruct (cancelledBy env u c); [|inversion Hin].
        apply list_elem_of_singleton in Hin. discriminate.
      * apply list_elem_of_singleton in Hin. discriminate.
  - destruct (processBatch_valid env items newIdx c Hne Hinv) as [_ Hout].
    rewrite Hout. clear Hout.
    set (days := dayLoop env Background (dayEntries env c items) _) in *.
    pose proof (dayLoop_events env Background (dayEntries env c items)
                  (clk (acceptItems env (length items) items ∅ c))) as Hdays.
    fold days in Hdays.
    assert (Hclosed : ID t ∉ entryIDs (rangeOrder (closeRangeOrder env) (val days))).
    { intros Hin. apply Hentries. eapply closed_ids, Hin. }
    refine (conj _ (conj _ (conj Hbucket Hgroups))).
    + unfold events in *. rewrite filter_cons_False by (cbn; congruence).
      rewrite !filter_app, Hacc.
      fold (events (ID t) (out days)).
      rewrite (events_none_mentions _ _ _ Hdays Hentries).
      fold (events (ID t) (closeEvents (rangeOrder (closeRangeOrder env) (val days)))).
      rewrite (events_none_closes _ _ Hclosed). reflexivity.
    + intros reqs r Hin Hr Heq.
      assert (Hq : EvQueryRun reqs ∈ out days).
      { apply elem_of_cons in Hin as [Hin|Hin]; [discriminate|].
        apply elem_of_app in Hin as [Hin|Hin].
        - exfalso. clear - Hin. revert c Hin. generalize (length items) as n.
          induction items as [|[|u|tag] items IH]; intros n c Hin; cbn in Hin.
          + inversion Hin.
          + apply list_elem_of_singleton in Hin. discriminate.
          + apply elem_of_cons in Hin as [Hin|Hin]; [discriminate|].
            apply elem_of_app in Hin as [Hin|Hin]; [|eapply IH, Hin].
            destruct (cancelledBy env u c); [|inversion Hin].
            apply list_elem_of_singleton in Hin. discriminate.
          + apply list_elem_of_singleton in Hin. discriminate.
        - apply elem_of_app in Hin as [Hin|Hin]; [exact Hin|]. exfalso.
          apply elem_of_app in Hin as [Hin|Hin].
          + unfold closeEvents in Hin. apply list_elem_of_bind in Hin as (e & Hin & _).
            apply list_elem_of_fmap in Hin as (u & Hu & _). discriminate.
          + apply list_elem_of_singleton in Hin. discriminate. }
      rewrite Forall_forall in Hdays. specialize (Hdays _ Hq). cbn in Hdays.
      apply Hentries. rewrite <- Heq. apply Hdays, Hr.
Qed.

Lemma C7_cancelled_in_queue_is_closed_and_skipped_witness :
  let env := envCancel1 1 oneBlock in
  let items := [ReqTask taskB] ++ ReqTask taskA :: [] in
  let tr := out (processBatch env items 7 0%nat) in
  events (ID taskA) tr = [EvClose (ID taskA)]
  /\ (forall reqs r, EvQueryRun reqs ∈ tr -> r ∈ reqs -> r.1 <> ID taskA)
  /\ (forall d b u, (d, b) ∈ dayEntries env 0 items -> u ∈ b -> ID u <> ID taskA)
  /\ (forall d b ts brs pt u,
         (d, b) ∈ dayEntries env 0 items -> (forall x, x ∈ ts -> x ∈ b) ->
         pt ∈ partitionFingerprintRange ts brs -> u ∈ tasks pt -> ID u <> ID taskA).
Proof.
  apply (C7_cancelled_in_queue_is_closed_and_skipped (envCancel1 1 oneBlock)
           [ReqTask taskB] taskA [] 7 0%nat).
  - repeat constructor. exists taskB. reflexivity.
  - apply (bool_decide_unpack _). vm_compute. exact I.
  - vm_compute. reflexivity.
Defined.

(** ** The day buckets of a task and its close *)

Lemma taskDays_elem t d :
  d ∈ taskDays t
  <-> (fromDay t = throughDay t /\ d = fromDay t)
      \/ (exists k, 0 <= k /\ d = fromDay t + k * Day /\ d < throughDay t).
Proof.
  pose proof Day_pos as HD.
  unfold taskDays. case_bool_decide as Heq.
  - rewrite list_elem_of_singleton. split.
    + intros ->. left. split; [assumption | reflexivity].
    + intros [[_ ->]|(k & Hk & -> & Hlt)]; [reflexivity | nia].
  - rewrite spanDays_elem. split.
    + intros H. right. exact H.
    + intros [[H _]|H]; [contradiction | exact H].
Qed.

Lemma accepted_never_cancelled env t items : forall c,
  firstInvalid items = None -> ReqTask t ∈ items ->
  cancelledAt env (ID t) = None -> t ∈ acceptedTasks env c items.
Proof.
  induction items as [|[|u|tag] items IH]; intros c Hinv Hin Hn;
    try discriminate; [inversion Hin|].
  cbn [firstInvalid] in Hinv. cbn [acceptedTasks].
  apply elem_of_cons in Hin as [[= <-]|Hin].
  - unfold cancelledBy. rewrite Hn. left.
  - destruct (cancelledBy env u c); [|right]; apply IH; assumption.
Qed.

Lemma acceptEvents_close env n i items : forall c,
  EvClose i ∈ acceptEvents env n c items -> exists k, cancelledAt env i = Some k.
Proof.
  induction items as [|[|u|tag] items IH]; intros c Hin; cbn [acceptEvents] in Hin.
  - inversion Hin.
  - apply list_elem_of_singleton in Hin. discriminate.
  - apply elem_of_cons in Hin as [Hin|Hin]; [discriminate|].
    apply elem_of_app in Hin as [Hin|Hin]; [|eapply IH, Hin].
    destruct (cancelledBy env u c) eqn:Hc; [|inversion Hin].
    apply list_elem_of_singleton in Hin. injection Hin as ->.
    unfold cancelledBy in Hc. destruct (cancelledAt env (ID u)); [eauto | discriminate].
  - apply list_elem_of_singleton in Hin. discriminate.
Qed.

(** C6, as stated, fails for a task whose two bounds are the same day: no
    day lies from [fromDay] inclusive to [throughDay] exclusive, and the task
    is placed in the bucket of [fromDay]. *)
Lemma C6_counterexample :
  Bounds taskA = (D0, D0)
  /\ bucketTask taskA ∅ !! D0 = Some [taskA]
  /\ ~ (fromDay taskA <= D0 < throughDay taskA).
Proof.
  split; [reflexivity|]. split; [vm_compute; reflexivity|].
  vm_compute. intros [_ H]. discriminate.
Qed.

(** C6, amended.  A task is appended to the bucket of [fromDay] alone when
    its two bounds are equal, and otherwise to the bucket of each day
    [fromDay + k * Day] (k = 0, 1, ...) that is before [throughDay], once
    each and to no other.  When the batch holds only tasks, a task of it
    whose token never fires and whose bounds are in order has [Close] called
    on it in the closing loop, after every day bucket has been processed,
    and nowhere before. *)
Theorem C6_buckets_of_a_task_and_its_close env items newIdx c t :
  (forall d,
      d ∈ taskDays t
      <-> (fromDay t = throughDay t /\ d = fromDay t)
          \/ (exists k, 0 <= k /\ d = fromDay t + k * Day /\ d < throughDay t))
  /\ (forall m d,
         bucketTask t m !! d
         = if decide (d ∈ taskDays t) then Some (default [] (m !! d) ++ [t]) else m !! d)
  /\ (firstInvalid items = None -> ReqTask t ∈ items ->
      cancelledAt env (ID t) = None -> fromDay t <= throughDay t ->
      let n := length items in
      let days := dayLoop env Background (dayEntries env c items)
                    (clk (acceptItems env n items ∅ c)) in
      let before := EvAddDequeuedTasks n :: acceptEvents env n c items ++ out days in
      let closes := closeEvents (rangeOrder (closeRangeOrder env) (val days)) in
      out (processBatch env items newIdx c) = before ++ closes ++ [EvRelease n]
      /\ (EvClose (ID t) ∉ before)
      /\ (EvClose (ID t) ∈ closes)).
Proof.
  split; [apply taskDays_elem|]. split; [apply bucketTask_lookup|].
  intros Hinv Hin Hn Hle. cbn zeta.
  assert (Hne : items <> []) by (intros ->; inversion Hin).
  destruct (processBatch_valid env items newIdx c Hne Hinv) as [_ Hout].
  split; [rewrite Hout; cbn [app]; rewrite <- app_assoc; reflexivity|].
  split.
  - intros Hbad. apply elem_of_cons in Hbad as [Hbad|Hbad]; [discriminate|].
    apply elem_of_app in Hbad as [Hbad|Hbad].
    + apply acceptEvents_close in Hbad as [k Hk]. congruence.
    + pose proof (dayLoop_events env Background (dayEntries env c items)
                    (clk (acceptItems env (length items) items ∅ c))) as Hdays.
      rewrite Forall_forall in Hdays. apply (Hdays _ Hbad).
  - pose proof (accepted_never_cancelled env t items c Hinv Hin Hn) as Hacc.
    assert (Hday : fromDay t ∈ taskDays t).
    { apply taskDays_elem. destruct (decide (fromDay t = throughDay t)) as [Heq|Hneq].
      - left. split; [assumption | reflexivity].
      - right. exists 0. repeat split; lia. }
    pose proof (dayEntries_has env c items (fromDay t) t Hacc Hday) as Hentry.
    assert (Htb : t ∈ bucketOf (acceptedTasks env c items) (fromDay t)).
    { unfold bucketOf. apply list_elem_of_filter. split; assumption. }
    destruct (dayLoop_val_keeps env Background (dayEntries env c items)
                (clk (acceptItems env (length items) items ∅ c))
                _ _ t Hn Hentry Htb) as (b' & Hb' & Ht').
    apply closeEvents_elem. exists (fromDay t), b', t.
    rewrite rangeOrder_Permutation. repeat split; assumption.
Qed.

Lemma C6_buckets_of_a_task_and_its_close_witness :
  let env := envQuiet noBlocks in
  let items := [ReqTask taskB; ReqTask taskTwoDays] in
  taskDays taskTwoDays = [D0; D1]
  /\ out (processBatch env items 7 0%nat)
     = [EvAddDequeuedTasks 2; EvPendingDelete 2; EvPendingDelete 1;
        EvGetBlockRefs "tenant-a" 86400000 172799999;
        EvSendRes 1 (mkOutput 10 []); EvSendRes 1 (mkOutput 20 []);
        EvGetBlockRefs "tenant-a" 0 86399999;
        EvSendRes 2 (mkOutput 10 []); EvSendRes 2 (mkOutput 20 []);
        EvSendRes 1 (mkOutput 10 []); EvSendRes 1 (mkOutput 20 [])]
       ++ [EvClose 1; EvClose 2; EvClose 1] ++ [EvRelease 2]
  /\ EvClose 1 ∈ [EvClose 1; EvClose 2; EvClose 1].
Proof.
  split; [vm_compute; reflexivity|].
  pose proof (C6_buckets_of_a_task_and_its_close (envQuiet noBlocks)
                [ReqTask taskB; ReqTask taskTwoDays] 7 0%nat taskTwoDays) as (_ & _ & H).
  destruct H as (Hout & _ & Hin).
  - reflexivity.
  - right. left.
  - reflexivity.
  - vm_compute. discriminate.
  - split; [exact Hout | exact Hin].
Defined.

(** ** The dequeue error and the release of the batch *)

Lemma iteration_soft_error env dq c e :
  dqErr dq = Some e -> ~ (e = ErrStopped /\ dqItems dq = []) ->
  iteration env dq c
  = mkRes (val (processBatch env (dqItems dq) (dqNewIdx dq) c))
      ([EvObserveWait; EvIncDequeueErrors; EvLogError "failed to dequeue tasks"]
       ++ out (processBatch env (dqItems dq) (dqNewIdx dq) c))
      (clk (processBatch env (dqItems dq) (dqNewIdx dq) c)).
Proof.
  intros He Hnot. unfold iteration. rewrite He.
  assert (Hcond : bool_decide (e = ErrStopped)
                  && bool_decide (length (dqItems dq) = 0%nat) = false).
  { apply andb_false_iff.
    destruct (decide (e = ErrStopped)) as [->|Hne].
    - right. apply bool_decide_eq_false_2. intros Hlen. apply Hnot.
      split; [reflexivity|]. destruct (dqItems dq); [reflexivity | discriminate].
    - left. apply bool_decide_eq_false_2. exact Hne. }
  rewrite Hcond. unfold bind. cbn [emit val out clk]. reflexivity.
Qed.

(** C8. A pass returns from the dequeue error check (line 127: it returns the
    dequeue error having only logged that the queue is stopped) exactly when
    the error is [queue.ErrStopped] and the batch is empty.  With any other
    dequeue error, or with items alongside the error, it counts the error,
    logs it and goes on to process the items that were returned.  In the
    first case the loop of [running] ends there, with that error. *)
Theorem C8_dequeue_error_policy env dq c :
  ((exists e, dqErr dq = Some e
              /\ iteration env dq c
                 = mkRes (Return e) [EvObserveWait; EvLogError "queue is stopped"] c)
   <-> dqErr dq = Some ErrStopped /\ dqItems dq = [])
  /\ (forall e, dqErr dq = Some e -> ~ (e = ErrStopped /\ dqItems dq = []) ->
        iteration env dq c
        = mkRes (val (processBatch env (dqItems dq) (dqNewIdx dq) c))
            ([EvObserveWait; EvIncDequeueErrors; EvLogError "failed to dequeue tasks"]
             ++ out (processBatch env (dqItems dq) (dqNewIdx dq) c))
            (clk (processBatch env (dqItems dq) (dqNewIdx dq) c)))
  /\ (forall script, dqErr dq = Some ErrStopped -> dqItems dq = [] ->
        running env ((Background, dq) :: script) c
        = mkRes (Some ErrStopped) [EvObserveWait; EvLogError "queue is stopped"] c).
Proof.
  split; [|split; [apply iteration_soft_error|]].
  2:{ intros script He Hnil. cbn [running ctxErr]. unfold bind, iteration.
      rewrite He, Hnil. reflexivity. }
  split.
  - intros (e & He & Hit).
    destruct (decide (e = ErrStopped /\ dqItems dq = [])) as [[-> Hnil]|Hnot].
    + split; assumption.
    + rewrite (iteration_soft_error env dq c e He Hnot) in Hit. discriminate.
  - intros [He Hnil]. exists ErrStopped. split; [exact He|].
    unfold iteration. rewrite He, Hnil. reflexivity.
Qed.

Lemma C8_dequeue_error_policy_witness :
  let env := envQuiet noBlocks in
  let dq := mkDequeued [ReqTask taskA] 7 (Some ErrStopped) in
  iteration env dq 0%nat
  = mkRes (Continue 7)
      ([EvObserveWait; EvIncDequeueErrors; EvLogError "failed to dequeue tasks"]
       ++ out (processBatch env [ReqTask taskA] 7 0%nat))
      2%nat.
Proof.
  assert (Hnot : ~ (ErrStopped = ErrStopped /\ [ReqTask taskA] = []))
    by (intros [_ Hnil]; discriminate).
  exact (proj1 (proj2 (C8_dequeue_error_policy (envQuiet noBlocks)
                         (mkDequeued [ReqTask taskA] 7 (Some ErrStopped)) 0%nat))
           ErrStopped eq_refl Hnot).
Defined.

Lemma count_release_accept env n items : forall c,
  count isRelease (acceptEvents env n c items)
  = match firstInvalid items with Some _ => 1%nat | None => 0%nat end.
Proof.
  induction items as [|[|u|tag] items IH]; intros c; try reflexivity.
  cbn [acceptEvents firstInvalid].
  change (?x :: ?l ++ ?l') with ([x] ++ l ++ l'). rewrite !count_app, IH.
  destruct (cancelledBy env u c); reflexivity.
Qed.

Lemma count_release_days ids tr :
  Forall (mentionsOnly ids) tr -> count isRelease tr = 0%nat.
Proof.
  intros H. apply count_zero. eapply Forall_impl; [exact H|].
  intros e He. destruct e; cbn in *; try reflexivity; contradiction.
Qed.

Lemma count_release_closes entries : count isRelease (closeEvents entries) = 0%nat.
Proof.
  apply count_zero, Forall_forall. intros e He.
  apply closeEvents_elem in He as (d & b & t & _ & _ & ->). reflexivity.
Qed.

Lemma count_release_batch env items newIdx c :
  count isRelease (out (processBatch env items newIdx c)) = 1%nat.
Proof.
  destruct items as [|r items]; [reflexivity|].
  destruct (firstInvalid (r :: items)) as [err|] eqn:Hinv.
  - destruct (processBatch_invalid env (r :: items) newIdx c err) as [_ Hout];
      [discriminate | exact Hinv |].
    rewrite Hout. change (?x :: ?l) with ([x] ++ l).
    rewrite count_app, count_release_accept, Hinv. reflexivity.
  - destruct (processBatch_valid env (r :: items) newIdx c) as [_ Hout];
      [discriminate | exact Hinv |].
    rewrite Hout. change (?x :: ?l ++ ?l') with ([x] ++ l ++ l').
    rewrite !count_app, count_release_accept, Hinv, count_release_closes.
    rewrite (count_release_days _ _ (dayLoop_events _ _ _ _)). reflexivity.
Qed.

(** C9 fails on the queue-stopped exit: [DequeueMany] hands back an empty
    batch together with [queue.ErrStopped], and [running] returns at line 127
    without calling [ReleaseRequests].  On every other path of a pass (empty
    batch, invalid item, normal completion) the batch is released exactly
    once. *)
Theorem C9_release_count env dq c :
  iteration env (mkDequeued [] (dqNewIdx dq) (Some ErrStopped)) c
  = mkRes (Return ErrStopped) [EvObserveWait; EvLogError "queue is stopped"] c
  /\ count isRelease (out (iteration env dq c))
     = if bool_decide (dqErr dq = Some ErrStopped /\ dqItems dq = [])
       then 0%nat else 1%nat.
Proof.
  split; [reflexivity|].
  case_bool_decide as Hstop.
  - destruct Hstop as [He Hnil]. unfold iteration. rewrite He, Hnil. reflexivity.
  - destruct (dqErr dq) as [e|] eqn:He.
    + assert (Hnot : ~ (e = ErrStopped /\ dqItems dq = [])).
      { intros [-> Hnil]. apply Hstop. split; [reflexivity | exact Hnil]. }
      rewrite (iteration_soft_error env dq c e He Hnot). cbn [out].
      rewrite count_app, count_release_batch. reflexivity.
    + unfold iteration. rewrite He. rewrite out_bind. cbn [emit out val clk].
      change (?x :: ?l) with ([x] ++ l). rewrite count_app, count_release_batch.
      reflexivity.
Qed.

(** * Further properties of the worker *)

(** ** The day handed to the store (lines 197 and 332-334) *)



(** ** The days of a task (lines 164-173) *)

Lemma daysFrom_closed_form fuel : forall i through,
  daysFrom fuel i through
  = (fun k : nat => i + Z.of_nat k * Day)
      <$> seq 0 (fuel `min` Z.to_nat ((through - i + Day - 1) `div` Day)).
Proof.
  pose proof Day_pos as HD.
  induction fuel as [|fuel IH]; intros i through; [reflexivity|].
  cbn [daysFrom]. case_bool_decide as Hi.
  - assert (Hn : Z.to_nat ((through - i + Day - 1) `div` Day)
                 = S (Z.to_nat ((through - (i + Day) + Day - 1) `div` Day))).
    { replace (through - i + Day - 1) with (through - (i + Day) + Day - 1 + 1 * Day) by lia.
      rewrite Z.div_add by lia.
      assert (0 <= (through - (i + Day) + Day - 1) `div` Day) by (apply Z.div_pos; lia).
      lia. }
    rewrite Hn, <- Nat.succ_min_distr. cbn [seq]. rewrite fmap_cons, IH.
    f_equal; [lia|]. rewrite <- fmap_S_seq, <- list_fmap_compose.
    apply list_fmap_ext. intros _ k _. cbn. lia.
  - assert (Z.to_nat ((through - i + Day - 1) `div` Day) = 0%nat) as ->.
    { assert ((through - i + Day - 1) `div` Day <= 0); [|lia].
      apply Z.lt_succ_r, Z.div_lt_upper_bound; lia. }
    rewrite Nat.min_0_r. reflexivity.
Qed.

(** X2. The days visited by the loop of lines 170-172 are [fromDay],
    [fromDay + 24h], ... in increasing order; there are as many as whole or
    started days between the two bounds, and none when [throughDay] is not
    after [fromDay]. *)
Theorem X2_span_days_closed_form fromDay throughDay :
  spanDays fromDay throughDay
  = (fun k : nat => fromDay + Z.of_nat k * Day)
      <$> seq 0 (Z.to_nat ((throughDay - fromDay + Day - 1) `div` Day)).
Proof.
  pose proof Day_pos as HD.
  unfold spanDays. rewrite daysFrom_closed_form. f_equal. f_equal.
  apply Nat.min_r.
  destruct (decide (throughDay - fromDay + Day - 1 < 0)) as [Hneg|Hpos].
  - assert ((throughDay - fromDay + Day - 1) `div` Day < 0); [|lia].
    apply Z.div_lt_upper_bound; lia.
  - apply Z2Nat.inj_le; [apply Z.div_pos; lia | |].
    + assert (-1 <= (throughDay - fromDay) `div` Day); [|lia].
      apply Z.div_le_lower_bound; lia.
    + replace (throughDay - fromDay + Day - 1) with (throughDay - fromDay - 1 + 1 * Day) by lia.
      rewrite Z.div_add by lia.
      assert ((throughDay - fromDay - 1) `div` Day <= (throughDay - fromDay) `div` Day); [|lia].
      apply Z.div_le_mono; lia.
Qed.

(** ** The map built by the dequeue loop (lines 140-174) *)

Lemma foldl_bucketTask_nonempty ts : forall m,
  (forall d b, m !! d = Some b -> b <> []) ->
  forall d b, foldl (fun m t => bucketTask t m) m ts !! d = Some b -> b <> [].
Proof.
  induction ts as [|t ts IH]; intros m Hm; cbn [foldl]; [exact Hm|].
  apply IH. intros d b. rewrite bucketTask_lookup.
  destruct (decide (d ∈ taskDays t)).
  - intros [= <-]. destruct (default [] (m !! d)); discriminate.
  - apply Hm.
Qed.

(** X3. When the dequeue loop ends without an invalid item, [tasksByDay] has
    an entry for a day exactly when some task that was not skipped spans that
    day, and the entry lists those tasks once each, in the order of the
    batch. *)
Theorem X3_buckets_after_dequeue env n items c m d :
  val (acceptItems env n items ∅ c) = inr m ->
  m !! d = match bucketOf (acceptedTasks env c items) d with
           | [] => None
           | b => Some b
           end.
Proof.
  intros Hval. destruct (acceptItems_spec env n items ∅ c) as [Hv _].
  rewrite Hv in Hval. destruct (firstInvalid items); [discriminate|].
  injection Hval as <-.
  set (ts := acceptedTasks env c items).
  destruct (foldl (fun m t => bucketTask t m) ∅ ts !! d) as [b|] eqn:Hd.
  - pose proof (foldl_bucketTask_dom ts ∅ d b Hd) as Hb.
    rewrite lookup_empty in Hb. cbn in Hb. subst b.
    pose proof (foldl_bucketTask_nonempty ts ∅) as Hne.
    specialize (Hne ltac:(intros ? ? H; rewrite lookup_empty in H; discriminate) d _ Hd).
    destruct (bucketOf ts d); [contradiction | reflexivity].
  - destruct (bucketOf ts d) as [|t b] eqn:Hb; [reflexivity|].
    assert (Ht : t ∈ bucketOf ts d) by (rewrite Hb; left).
    unfold bucketOf in Ht. apply list_elem_of_filter in Ht as [Hday Hin].
    destruct (foldl_bucketTask_some ts ∅ d t Hin Hday) as [b' Hb'].
    fold ts in Hd. congruence.
Qed.

Lemma X3_buckets_after_dequeue_witness :
  let env := envCancel1 1 noBlocks in
  let task3 := mkTask 3 "tenant-a" D0 (D1 + Day) [7] in
  let items := [ReqTask taskB; ReqTask taskA; ReqTask task3] in
  exists m, val (acceptItems env 3 items ∅ 0%nat) = inr m
            /\ m !! D0 = Some [taskB; task3]
            /\ m !! D1 = Some [task3]
            /\ m !! (D1 + Day) = None.
Proof.
  intros env task3 items.
  exists (foldl (fun m t => bucketTask t m) ∅ [taskB; task3]).
  assert (Hm : val (acceptItems env 3 items ∅ 0%nat)
               = inr (foldl (fun m t => bucketTask t m) ∅ [taskB; task3]))
    by reflexivity.
  split; [exact Hm|].
  split; [exact (X3_buckets_after_dequeue env 3 items 0%nat _ D0 Hm)|].
  split; [exact (X3_buckets_after_dequeue env 3 items 0%nat _ D1 Hm)|].
  exact (X3_buckets_after_dequeue env 3 items 0%nat _ (D1 + Day) Hm).
Defined.

(** ** One day bucket after the compaction (lines 183-192) *)

Lemma survivors_length env : forall s c, (length (survivors env c s) <= length s)%nat.
Proof. intros s c. apply sublist_length, survivors_sublist. Qed.

Lemma survivors_all_cancelled env : forall s c,
  (forall k t, s !! k = Some t -> cancelledBy env t (c + k) = true) ->
  survivors env c s = [].
Proof.
  induction s as [|u s IH]; intros c Hall; [reflexivity|].
  cbn [survivors]. rewrite <- (Nat.add_0_r c) at 1. rewrite (Hall 0%nat u eq_refl).
  apply IH. intros k t Hk. replace (S c + k)%nat with (c + S k)%nat by lia.
  apply Hall. exact Hk.
Qed.

(** X4. The compaction of a bucket changes what the map entry holds, never
    how much: the entry keeps its length and holds only tasks of the bucket.
    When every task of the bucket has its token set as the day loop looks at
    it, the day is skipped (no store call, nothing sent) and the entry is
    left as it was, so that the closing loop still closes each of them. *)
Theorem X4_compaction_keeps_the_length env ctx day bucket c :
  length (val (processDay env ctx day bucket c)) = length bucket
  /\ (forall t, t ∈ val (processDay env ctx day bucket c) -> t ∈ bucket)
  /\ ((forall k t, bucket !! k = Some t -> cancelledBy env t (c + k) = true) ->
      processDay env ctx day bucket c = mkRes bucket [] (c + length bucket)%nat).
Proof.
  split; [|split].
  - destruct (processDay_spec env ctx day bucket c) as [Hval _]. rewrite Hval.
    pose proof (survivors_length env bucket c).
    rewrite length_app, length_drop. lia.
  - intros t. apply processDay_val_elem.
  - intros Hall. unfold processDay, bind. rewrite DeleteFunc_spec.
    rewrite (survivors_all_cancelled env bucket c Hall). reflexivity.
Qed.

Lemma X4_compaction_keeps_the_length_witness :
  processDay (envCancel1 0 oneBlock) Background D0 [taskA] 5%nat = mkRes [taskA] [] 6%nat.
Proof.
  apply (proj2 (proj2 (X4_compaction_keeps_the_length (envCancel1 0 oneBlock) Background
                         D0 [taskA] 5%nat))).
  intros [|k] t Hk; [injection Hk as <-; reflexivity | discriminate].
Defined.

(** ** worker.processBlock: when the query runs (lines 285-330) *)

Lemma checkTasks_all_clear env : forall ts c,
  (forall k t, ts !! k = Some t -> cancelledBy env t (c + k) = false) ->
  checkTasks env ts c = mkRes None [] (c + length ts)%nat.
Proof.
  induction ts as [|u ts IH]; intros c Hall.
  - cbn. rewrite Nat.add_0_r. reflexivity.
  - cbn [checkTasks]. unfold bind. cbn [taskErr val out clk].
    pose proof (Hall 0%nat u eq_refl) as Hu. rewrite Nat.add_0_r in Hu. rewrite Hu.
    rewrite IH.
    + cbn [val out clk length]. f_equal. lia.
    + intros k t Hk. replace (S c + k)%nat with (c + S k)%nat by lia. apply Hall, Hk.
Qed.

Lemma checkTasks_none env ts c :
  val (checkTasks env ts c) = None ->
  forall k t, ts !! k = Some t -> cancelledBy env t (c + k) = false.
Proof.
  intros Hnone k t Hk. destruct (cancelledBy env t (c + k)) eqn:Hc; [|reflexivity].
  rewrite (checkTasks_cancelled env ts c k t Hk Hc) in Hnone. discriminate.
Qed.

(** X5. [processBlock] runs the fused query exactly when the schema was
    read, the context it was given is not done and no task of the group has
    its token set at the check; it then reads each token once and its result
    is that of the run over the merged requests of all the tasks of the
    group.  In every other case it returns an error and has done nothing
    that can be observed: no query, no Output. *)
Theorem X5_query_runs_iff_all_clear env ctx bq day ts c :
  let clear :=
    (exists n, bqSchema bq = inr n) /\ ctxErr ctx = None
    /\ (forall k t, ts !! k = Some t -> cancelledBy env t (c + k) = false) in
  (clear ->
   processBlock env ctx bq day ts c
   = Run bq (newTaskMergeIterator ts) (c + length ts)%nat)
  /\ (~ clear ->
      out (processBlock env ctx bq day ts c) = []
      /\ val (processBlock env ctx bq day ts c) <> None).
Proof.
  cbn zeta. unfold processBlock. split.
  - intros ([n Hs] & Hctx & Hall). rewrite Hs, Hctx.
    unfold bind. rewrite (checkTasks_all_clear env ts c Hall). cbn [val out clk].
    unfold Run. destruct (bqFailure bq) as [[k e]|]; reflexivity.
  - intros Hnot. destruct (bqSchema bq) as [err|n] eqn:Hs; [split; [reflexivity | discriminate]|].
    destruct (ctxErr ctx) as [err|] eqn:Hctx; [split; [reflexivity | discriminate]|].
    rewrite val_bind, out_bind, checkTasks_out.
    destruct (val (checkTasks env ts c)) as [err|] eqn:Hcheck;
      [split; [reflexivity | discriminate]|].
    exfalso. apply Hnot. split; [eauto|]. split; [reflexivity|].
    apply checkTasks_none, Hcheck.
Qed.

Lemma X5_query_runs_iff_all_clear_witness :
  processBlock (envQuiet oneBlock) Background keepAll D0 [taskA; taskB] 0%nat
  = mkRes None
      [EvQueryRun [(1%nat, 10); (2%nat, 10); (1%nat, 20); (2%nat, 20)];
       EvSendRes 1 (mkOutput 10 []); EvSendRes 2 (mkOutput 10 []);
       EvSendRes 1 (mkOutput 20 []); EvSendRes 2 (mkOutput 20 [])]
      2%nat.
Proof.
  apply (proj1 (X5_query_runs_iff_all_clear (envQuiet oneBlock) Background keepAll D0
                  [taskA; taskB] 0%nat)).
  split; [exists 4%nat; reflexivity|]. split; [reflexivity|].
  intros k t _. reflexivity.
Defined.

(** ** worker.processBlocksWithCallback: the callback (lines 270-282) *)

Lemma findGroup_app pre : forall rest mn mx,
  (forall p, p ∈ pre ->
             ~ (MinFingerprint (blockRef p) = mn /\ MaxFingerprint (blockRef p) = mx)) ->
  findGroup (pre ++ rest) mn mx = findGroup rest mn mx.
Proof.
  induction pre as [|p pre IH]; intros rest mn mx Hpre; [reflexivity|].
  cbn [app findGroup].
  assert (Hp : bool_decide (MinFingerprint (blockRef p) = mn)
               && bool_decide (MaxFingerprint (blockRef p) = mx) = false).
  { destruct (bool_decide _) eqn:H1; [|reflexivity].
    destruct (bool_decide (MaxFingerprint _ = _)) eqn:H2; [|reflexivity].
    exfalso. apply (Hpre p); [left|].
    split; [eapply bool_decide_eq_true_1, H1 | eapply bool_decide_eq_true_1, H2]. }
  rewrite Hp. apply IH. intros q Hq. apply Hpre. right. exact Hq.
Qed.

(** X6. The callback given to [Fetch] looks a fetched block up by its two
    fingerprint bounds only.  A block whose bounds are those of no group is
    refused with the "no overlapping blocks" error and nothing is done for
    it; otherwise the tasks processed are those of the first group with
    these bounds, also when a later group has the same bounds. *)
Theorem X6_callback_matches_by_bounds env ctx day pts bq mn mx c :
  ((forall p, p ∈ pts ->
              ~ (MinFingerprint (blockRef p) = mn /\ MaxFingerprint (blockRef p) = mx)) ->
   blockCallback env ctx day pts bq mn mx c = mkRes (Some (ErrNoOverlap mn mx)) [] c)
  /\ (forall pre pt post,
         pts = pre ++ pt :: post ->
         (forall p, p ∈ pre ->
                    ~ (MinFingerprint (blockRef p) = mn /\ MaxFingerprint (blockRef p) = mx)) ->
         MinFingerprint (blockRef pt) = mn -> MaxFingerprint (blockRef pt) = mx ->
         blockCallback env ctx day pts bq mn mx c
         = processBlock env ctx bq day (tasks pt) c).
Proof.
  unfold blockCallback. split.
  - intros Hnone. rewrite <- (app_nil_r pts), findGroup_app by exact Hnone. reflexivity.
  - intros pre pt post -> Hpre Hmin Hmax. rewrite findGroup_app by exact Hpre.
    cbn [findGroup]. rewrite !bool_decide_eq_true_2 by assumption. reflexivity.
Qed.

Lemma X6_callback_matches_by_bounds_witness :
  let first := mkBounded (mkBlockRef 0 100) [taskA] in
  let second := mkBounded (mkBlockRef 0 100) [taskB] in
  blockCallback (envQuiet oneBlock) Background D0 [first; second] keepAll 0 101 0%nat
  = mkRes (Some (ErrNoOverlap 0 101)) [] 0%nat
  /\ blockCallback (envQuiet oneBlock) Background D0 [first; second] keepAll 0 100 0%nat
     = processBlock (envQuiet oneBlock) Background keepAll D0 [taskA] 0%nat.
Proof.
  intros first second. split.
  - apply (proj1 (X6_callback_matches_by_bounds (envQuiet oneBlock) Background D0
                    [first; second] keepAll 0 101 0%nat)).
    intros p Hp [_ Hmax].
    apply elem_of_cons in Hp as [->|Hp]; [discriminate|].
    apply list_elem_of_singleton in Hp. subst p. discriminate.
  - apply (proj2 (X6_callback_matches_by_bounds (envQuiet oneBlock) Background D0
                    [first; second] keepAll 0 100 0%nat) [] first [second]);
      [reflexivity | | reflexivity | reflexivity].
    intros p Hp. inversion Hp.
Defined.

(** ** A pass that meets an invalid item (lines 142-153) *)

Lemma firstInvalid_app pre rest :
  allTasks pre -> firstInvalid (pre ++ rest) = firstInvalid rest.
Proof.
  induction 1 as [|r pre [t ->] _ IH]; [reflexivity | exact IH].
Qed.

Lemma acceptEvents_app env n pre rest : forall c,
  allTasks pre ->
  acceptEvents env n c (pre ++ rest)
  = acceptEvents env n c pre ++ acceptEvents env n (c + length pre)%nat rest.
Proof.
  intros c Hpre. revert c. induction Hpre as [|r pre [t ->] _ IH]; intros c.
  - cbn. rewrite Nat.add_0_r. reflexivity.
  - cbn [app acceptEvents length]. rewrite IH, <- !app_assoc.
    replace (S c + length pre)%nat with (c + S (length pre))%nat by lia. reflexivity.
Qed.

Lemma acceptEvents_never_cancelled env n id items c :
  cancelledAt env id = None -> events id (acceptEvents env n c items) = [].
Proof.
  intros Hn. apply events_nil. intros e He.
  destruct e; try reflexivity.
  - revert c He. induction items as [|[|u|tag] items IH]; intros c He; cbn in He.
    + inversion He.
    + apply list_elem_of_singleton in He. discriminate.
    + apply elem_of_cons in He as [He|He]; [discriminate|].
      apply elem_of_app in He as [He|He]; [|eapply IH, He].
      destruct (cancelledBy env u c); [|inversion He].
      apply list_elem_of_singleton in He. discriminate.
    + apply list_elem_of_singleton in He. discriminate.
  - revert c He. induction items as [|[|u|tag] items IH]; intros c He; cbn in He.
    + inversion He.
    + apply list_elem_of_singleton in He. discriminate.
    + apply elem_of_cons in He as [He|He]; [discriminate|].
      apply elem_of_app in He as [He|He]; [|eapply IH, He].
      destruct (cancelledBy env u c); [|inversion He].
      apply list_elem_of_singleton in He. discriminate.
    + apply list_elem_of_singleton in He. discriminate.
  - cbn. apply bool_decide_eq_false_2. intros ->.
    apply acceptEvents_close in He as [k Hk]. congruence.
Qed.

(** X7. A batch with an item that is not a task, after the tasks [pre]: the
    pass returns the matching error and releases the batch once, right after
    the dequeue loop has stopped at that item.  The tasks of [pre] were
    removed from the pending set, and those already cancelled were closed;
    the others were put in buckets that are never processed: a task whose
    token never fires is sent nothing and is not closed. *)
Theorem X7_invalid_item_leaves_tasks_open env pre r post newIdx c :
  let items := pre ++ r :: post in
  let res := processBatch env items newIdx c in
  allTasks pre -> (forall t, r <> ReqTask t) ->
  val res = Return (match r with ReqOther tag => ErrCast tag | _ => ErrNilItem end)
  /\ out res
     = EvAddDequeuedTasks (length items)
       :: acceptEvents env (length items) c pre ++ [EvRelease (length items)]
  /\ (forall id, cancelledAt env id = None -> events id (out res) = []).
Proof.
  cbn zeta. intros Hpre Hr.
  set (items := pre ++ r :: post).
  assert (Hne : items <> []) by (unfold items; destruct pre; discriminate).
  assert (Hinv : firstInvalid items
                 = Some (match r with ReqOther tag => ErrCast tag | _ => ErrNilItem end)).
  { unfold items. rewrite firstInvalid_app by exact Hpre.
    destruct r as [|t|tag]; [reflexivity | destruct (Hr t eq_refl) | reflexivity]. }
  destruct (processBatch_invalid env items newIdx c _ Hne Hinv) as [Hv Ho].
  assert (Hout : out (processBatch env items newIdx c)
                 = EvAddDequeuedTasks (length items)
                   :: acceptEvents env (length items) c pre ++ [EvRelease (length items)]).
  { rewrite Ho. unfold items at 3. rewrite acceptEvents_app by exact Hpre.
    destruct r as [|t|tag]; [reflexivity | destruct (Hr t eq_refl) | reflexivity]. }
  split; [exact Hv|]. split; [exact Hout|].
  intros id Hid. rewrite Ho. unfold events. rewrite filter_cons_False by (cbn; congruence).
  apply acceptEvents_never_cancelled, Hid.
Qed.

Lemma X7_invalid_item_leaves_tasks_open_witness :
  let env := envCancel1 0 oneBlock in
  let res := processBatch env ([ReqTask taskA; ReqTask taskB] ++ ReqNil :: [ReqTask taskB]) 7 0%nat in
  val res = Return ErrNilItem
  /\ out res = [EvAddDequeuedTasks 4; EvPendingDelete 1; EvClose 1; EvPendingDelete 2;
                EvRelease 4]
  /\ events 2 (out res) = [].
Proof.
  destruct (X7_invalid_item_leaves_tasks_open (envCancel1 0 oneBlock)
              [ReqTask taskA; ReqTask taskB] ReqNil [ReqTask taskB] 7 0%nat)
    as (Hv & Ho & Hev).
  - repeat constructor; eauto.
  - discriminate.
  - split; [exact Hv|]. split; [exact Ho|]. exact (Hev 2%nat eq_refl).
Defined.

(** ** What a pass returns (lines 109-252) *)

Lemma processBatch_val env items newIdx c :
  val (processBatch env items newIdx c)
  = match firstInvalid items with
    | Some err => Return err
    | None => Continue newIdx
    end.
Proof.
  destruct items as [|r items]; [reflexivity|].
  destruct (firstInvalid (r :: items)) as [err|] eqn:Hinv.
  - apply processBatch_invalid; [discriminate | exact Hinv].
  - apply processBatch_valid; [discriminate | exact Hinv].
Qed.

Lemma iteration_val env dq c :
  val (iteration env dq c)
  = match dqErr dq with
    | Some err =>
        if bool_decide (err = ErrStopped) && bool_decide (length (dqItems dq) = 0%nat)
        then Return err
        else val (processBatch env (dqItems dq) (dqNewIdx dq) c)
    | None => val (processBatch env (dqItems dq) (dqNewIdx dq) c)
    end.
Proof.
  unfold iteration. rewrite val_bind. cbn [emit val clk].
  destruct (dqErr dq) as [err|]; [|reflexivity].
  destruct (_ && _); reflexivity.
Qed.

Lemma iteration_val_indep env env' dq c c' :
  val (iteration env dq c) = val (iteration env' dq c').
Proof. rewrite !iteration_val, !processBatch_val. reflexivity. Qed.

Lemma firstInvalid_kind items err :
  firstInvalid items = Some err -> err = ErrNilItem \/ exists tag, err = ErrCast tag.
Proof.
  induction items as [|[|t|tag] items IH]; cbn; [discriminate | | exact IH |];
    intros [= <-]; eauto.
Qed.

(** X9. What [running] returns, and after how many passes, depends on what
    the outer context and the queue answer and on nothing else: not on the
    store, the query engine, the cancellation of tasks or the order of the
    map.  It returns only the wrapped context error, the queue's stopped
    error, or the error of an item that is not a task; no failure of a day
    and no cancelled task ends the loop. *)
Theorem X9_only_the_queue_ends_the_loop env env' script c c' :
  val (running env script c) = val (running env' script c')
  /\ (forall e, val (running env script c) = Some e ->
        (exists cause, e = ErrShuttingDown cause) \/ e = ErrStopped
        \/ e = ErrNilItem \/ (exists tag, e = ErrCast tag)).
Proof.
  split.
  - revert c c'. induction script as [|[ctx dq] script IH]; intros c c'; [reflexivity|].
    cbn [running]. destruct (ctxErr ctx); [reflexivity|].
    rewrite !val_bind, (iteration_val_indep env env' dq c c').
    destruct (val (iteration env' dq c')); [apply IH | reflexivity].
  - revert c. induction script as [|[ctx dq] script IH]; intros c e; [discriminate|].
    cbn [running]. destruct (ctxErr ctx) as [cause|]; [intros [= <-]; eauto|].
    rewrite val_bind.
    destruct (val (iteration env dq c)) eqn:Hit.
    all: rewrite iteration_val, processBatch_val in Hit.
    + apply IH.
    + cbn [ret val]. intros [= <-].
      destruct (dqErr dq) as [err|].
      * destruct (bool_decide (err = ErrStopped)) eqn:Hstop.
        -- apply bool_decide_eq_true_1 in Hstop. subst err.
           destruct (bool_decide (length (dqItems dq) = 0%nat)); cbn in Hit.
           ++ injection Hit as <-. eauto.
           ++ destruct (firstInvalid (dqItems dq)) as [x|] eqn:Hinv; [|discriminate].
              injection Hit as <-. right. right. eapply firstInvalid_kind, Hinv.
        -- cbn in Hit.
           destruct (firstInvalid (dqItems dq)) as [x|] eqn:Hinv; [|discriminate].
           injection Hit as <-. right. right. eapply firstInvalid_kind, Hinv.
      * destruct (firstInvalid (dqItems dq)) as [x|] eqn:Hinv; [|discriminate].
        injection Hit as <-. right. right. eapply firstInvalid_kind, Hinv.
Qed.

Lemma X9_only_the_queue_ends_the_loop_witness :
  let script := [(Background, mkDequeued [ReqTask taskA] 7 None);
                 (Background, mkDequeued [ReqTask taskB; ReqOther 5] 8 (Some (ErrExternal 3)))] in
  val (running (envCancel1 4 oneBlock) script 0%nat) = Some (ErrCast 5)
  /\ ((exists cause, ErrCast 5 = ErrShuttingDown cause) \/ ErrCast 5 = ErrStopped
      \/ ErrCast 5 = ErrNilItem \/ (exists tag, ErrCast 5 = ErrCast tag)).
Proof.
  intros script.
  assert (Hv : val (running (envCancel1 4 oneBlock) script 0%nat) = Some (ErrCast 5))
    by (vm_compute; reflexivity).
  split; [exact Hv|].
  exact (proj2 (X9_only_the_queue_ends_the_loop (envCancel1 4 oneBlock) (envQuiet noBlocks)
                  script 0%nat 0%nat) (ErrCast 5) Hv).
Defined.

(** ** Which tasks a pass touches (lines 142-174 and 241-246) *)

Lemma accepted_in_items env items : forall c u,
  u ∈ acceptedTasks env c items -> ReqTask u ∈ items.
Proof.
  induction items as [|[|x|tag] items IH]; intros c u; cbn [acceptedTasks];
    try (intros H; inversion H; fail).
  destruct (cancelledBy env x c).
  - intros H. right. eapply IH, H.
  - intros H. apply elem_of_cons in H as [->|H]; [left | right; eapply IH, H].
Qed.

Lemma itemIDs_elem items u : ReqTask u ∈ items -> ID u ∈ itemIDs items.
Proof.
  induction items as [|r items IH]; intros H; [inversion H|].
  apply elem_of_cons in H as [<-|H]; [left|].
  destruct r; cbn; [|right|]; apply IH, H.
Qed.

Lemma itemIDs_inj items u t :
  NoDup (itemIDs items) -> ReqTask u ∈ items -> ReqTask t ∈ items ->
  ID u = ID t -> u = t.
Proof.
  induction items as [|r items IH]; intros Hnd Hu Ht Heq; [inversion Hu|].
  apply elem_of_cons in Hu as [<-|Hu]; apply elem_of_cons in Ht as [Ht|Ht].
  - congruence.
  - cbn in Hnd. apply NoDup_cons in Hnd as [Hnot _]. destruct Hnot.
    rewrite Heq. apply itemIDs_elem, Ht.
  - subst r. cbn in Hnd. apply NoDup_cons in Hnd as [Hnot _]. destruct Hnot.
    rewrite <- Heq. apply itemIDs_elem, Hu.
  - apply IH; try assumption.
    destruct r; cbn in Hnd; [assumption | | assumption].
    apply NoDup_cons in Hnd as [_ Hnd]. exact Hnd.
Qed.

Lemma accepted_events env n t post : forall pre c,
  allTasks pre ->
  NoDup (itemIDs (pre ++ ReqTask t :: post)) ->
  cancelledBy env t (c + length pre) = false ->
  events (ID t) (acceptEvents env n c (pre ++ ReqTask t :: post)) = [].
Proof.
  intros pre c Hpre Hnd Hc.
  rewrite itemIDs_app in Hnd. cbn [itemIDs] in Hnd.
  apply NoDup_app in Hnd as (_ & Hdisj & Hnd). apply NoDup_cons in Hnd as [Hpost _].
  assert (Hnpre : ID t ∉ itemIDs pre) by (intros Hin; apply (Hdisj _ Hin); left).
  rewrite acceptEvents_app by exact Hpre. unfold events. rewrite filter_app.
  rewrite (acceptEvents_other env n (ID t) pre c Hnpre). cbn [app acceptEvents].
  rewrite Hc. cbn [app]. rewrite filter_cons_False by (cbn; congruence).
  apply acceptEvents_other, Hpost.
Qed.

(** X8. A task that the dequeue loop accepts (its token is not set when it
    is reached; identities are unique in the batch) and whose [throughDay] is
    before its [fromDay]: the loop of lines 170-172 does not run for it, it
    enters no bucket, and in the whole pass it is sent nothing and [Close] is
    never called on it, whether or not the pass completes. *)
Theorem X8_reversed_bounds_task_is_lost env pre t post newIdx c :
  let items := pre ++ ReqTask t :: post in
  allTasks pre ->
  NoDup (itemIDs items) ->
  cancelledBy env t (c + length pre) = false ->
  throughDay t < fromDay t ->
  (forall d b, (d, b) ∈ dayEntries env c items -> t ∉ b)
  /\ events (ID t) (out (processBatch env items newIdx c)) = [].
Proof.
  cbn zeta. intros Hpre Hnd Hc Hrev.
  set (items := pre ++ ReqTask t :: post) in *.
  assert (Hdays : forall d, d ∉ taskDays t).
  { intros d Hd. apply taskDays_elem in Hd as [[Heq _]|(k & Hk & -> & Hlt)]; [lia|].
    pose proof Day_pos. nia. }
  assert (Ht : ReqTask t ∈ items) by (unfold items; apply elem_of_app; right; left).
  assert (Hentries : ID t ∉ entryIDs (dayEntries env c items)).
  { intros Hin. apply entryIDs_elem in Hin as (d & b & u & Hdb & Hu & Heq).
    apply dayEntries_elem in Hdb. subst b. unfold bucketOf in Hu.
    apply list_elem_of_filter in Hu as [Hd Hu].
    apply accepted_in_items in Hu.
    rewrite (itemIDs_inj items u t Hnd Hu Ht (eq_sym Heq)) in Hd.
    exact (Hdays d Hd). }
  split.
  { intros d b Hdb Htb. apply Hentries, entryIDs_elem. eauto 6. }
  pose proof (accepted_events env (length items) t post pre c Hpre Hnd Hc) as Hacc.
  fold items in Hacc.
  assert (Hne : items <> []) by (unfold items; destruct pre; discriminate).
  destruct (firstInvalid items) as [err|] eqn:Hinv.
  - destruct (processBatch_invalid env items newIdx c err Hne Hinv) as [_ Hout].
    rewrite Hout. unfold events in *.
    rewrite filter_cons_False by (cbn; congruence). exact Hacc.
  - destruct (processBatch_valid env items newIdx c Hne Hinv) as [_ Hout].
    rewrite Hout. clear Hout.
    set (days := dayLoop env Background (dayEntries env c items) _) in *.
    pose proof (dayLoop_events env Background (dayEntries env c items)
                  (clk (acceptItems env (length items) items ∅ c))) as Hdl.
    fold days in Hdl.
    assert (Hclosed : ID t ∉ entryIDs (rangeOrder (closeRangeOrder env) (val days))).
    { intros Hin. apply Hentries. eapply closed_ids, Hin. }
    unfold events in *. rewrite filter_cons_False by (cbn; congruence).
    rewrite !filter_app, Hacc.
    fold (events (ID t) (out days)).
    rewrite (events_none_mentions _ _ _ Hdl Hentries).
    fold (events (ID t) (closeEvents (rangeOrder (closeRangeOrder env) (val days)))).
    rewrite (events_none_closes _ _ Hclosed). reflexivity.
Qed.

Lemma X8_reversed_bounds_task_is_lost_witness :
  let backwards := mkTask 3 "tenant-a" D1 D0 [10] in
  let tr := out (processBatch (envQuiet noBlocks)
                   ([ReqTask taskA] ++ ReqTask backwards :: []) 7 0%nat) in
  tr = [EvAddDequeuedTasks 2; EvPendingDelete 1; EvPendingDelete 3;
        EvGetBlockRefs "tenant-a" 0 86399999;
        EvSendRes 1 (mkOutput 10 []); EvSendRes 1 (mkOutput 20 []);
        EvClose 1; EvRelease 2]
  /\ events 3 tr = [].
Proof.
  intros backwards tr. split; [vm_compute; reflexivity|].
  apply (X8_reversed_bounds_task_is_lost (envQuiet noBlocks) [ReqTask taskA] backwards [] 7 0%nat).
  - repeat constructor. eauto.
  - apply (bool_decide_unpack _). vm_compute. exact I.
  - reflexivity.
  - vm_compute. reflexivity.
Defined.

Lemma pendingDeletes_accept env n items : forall c,
  firstInvalid items = None ->
  pendingDeletes (acceptEvents env n c items) = itemIDs items.
Proof.
  unfold pendingDeletes.
  induction items as [|[|u|tag] items IH]; intros c Hinv; try discriminate; [reflexivity|].
  cbn [acceptEvents itemIDs firstInvalid] in *.
  change (?x :: ?l ++ ?l') with ([x] ++ l ++ l'). rewrite !omap_app, IH by exact Hinv.
  destruct (cancelledBy env u c); reflexivity.
Qed.

Lemma pendingDeletes_none tr :
  (forall e, e ∈ tr -> forall i, e <> EvPendingDelete i) -> pendingDeletes tr = [].
Proof.
  unfold pendingDeletes. induction tr as [|e tr IH]; intros H; [reflexivity|].
  cbn [omap list_omap]. change (list_omap ?f ?l) with (omap f l).
  rewrite IH by (intros e' He'; apply H; right; exact He').
  destruct e; try reflexivity. destruct (H (EvPendingDelete id) ltac:(left) id eq_refl).
Qed.

(** X12. In a batch made of tasks only, every task is removed from the
    worker's pending set exactly once, in the order of the batch, whether it
    is then skipped as cancelled or put in buckets; nothing else of the pass
    touches the pending set. *)
Theorem X12_every_task_leaves_the_pending_set env items newIdx c :
  firstInvalid items = None ->
  pendingDeletes (out (processBatch env items newIdx c)) = itemIDs items.
Proof.
  intros Hinv. destruct items as [|r items]; [reflexivity|].
  destruct (processBatch_valid env (r :: items) newIdx c) as [_ Hout];
    [discriminate | exact Hinv |].
  rewrite Hout. unfold pendingDeletes.
  change (?x :: ?l ++ ?l') with ([x] ++ l ++ l'). rewrite !omap_app.
  fold (pendingDeletes (acceptEvents env (length (r :: items)) c (r :: items))).
  rewrite pendingDeletes_accept by exact Hinv.
  match goal with
  | |- _ ++ _ ++ omap ?f (out ?days) ++ omap ?f (closeEvents ?es) ++ _ = _ =>
      fold (pendingDeletes (out days)); fold (pendingDeletes (closeEvents es));
      rewrite (pendingDeletes_none (out days)), (pendingDeletes_none (closeEvents es))
  end.
  - cbn. rewrite app_nil_r. reflexivity.
  - intros e He i ->. apply closeEvents_elem in He as (? & ? & ? & _ & _ & ?). discriminate.
  - intros e He i ->.
    pose proof (dayLoop_events env Background (dayEntries env c (r :: items))
                  (clk (acceptItems env (length (r :: items)) (r :: items) ∅ c))) as Hdl.
    rewrite Forall_forall in Hdl. exact (Hdl _ He).
Qed.

Lemma X12_every_task_leaves_the_pending_set_witness :
  pendingDeletes (out (processBatch (envCancel1 0 oneBlock)
                         [ReqTask taskB; ReqTask taskA; ReqTask taskOther] 7 0%nat))
  = [2%nat; 1%nat; 2%nat].
Proof.
  exact (X12_every_task_leaves_the_pending_set (envCancel1 0 oneBlock)
           [ReqTask taskB; ReqTask taskA; ReqTask taskOther] 7 0%nat eq_refl).
Defined.

Lemma acceptEvents_kind env n items e : forall c,
  e ∈ acceptEvents env n c items ->
  match e with
  | EvPendingDelete i | EvClose i => i ∈ itemIDs items
  | EvRelease _ => True
  | _ => False
  end.
Proof.
  induction items as [|[|u|tag] items IH]; intros c He; cbn [acceptEvents] in He.
  - inversion He.
  - apply list_elem_of_singleton in He. subst e. exact I.
  - apply elem_of_cons in He as [->|He]; [left|].
    apply elem_of_app in He as [He|He].
    + destruct (cancelledBy env u c); [|inversion He].
      apply list_elem_of_singleton in He. subst e. left.
    + specialize (IH _ He). destruct e; try exact IH; cbn [itemIDs]; right; exact IH.
  - apply list_elem_of_singleton in He. subst e. exact I.
Qed.

(** X13. Whatever the store and the query engine answer, a pass sends
    Outputs and errors only to tasks that the dequeue loop put in buckets,
    queries only for them, and calls [Close] only on tasks of the batch:
    a skipped task, or a task of another batch, is never sent anything. *)
Theorem X13_a_pass_touches_only_its_tasks env items newIdx c e :
  e ∈ out (processBatch env items newIdx c) ->
  match e with
  | EvSendRes i _ | EvSendErr i _ => i ∈ ID <$> acceptedTasks env c items
  | EvQueryRun reqs => forall r, r ∈ reqs -> r.1 ∈ ID <$> acceptedTasks env c items
  | EvClose i | EvPendingDelete i => i ∈ itemIDs items
  | _ => True
  end.
Proof.
  intros He. destruct items as [|r items].
  { cbn in He. apply list_elem_of_singleton in He. subst e. exact I. }
  set (its := r :: items) in *.
  assert (Hacc : forall e, e ∈ acceptEvents env (length its) c its ->
            match e with
            | EvSendRes i _ | EvSendErr i _ => i ∈ ID <$> acceptedTasks env c its
            | EvQueryRun reqs => forall r, r ∈ reqs -> r.1 ∈ ID <$> acceptedTasks env c its
            | EvClose i | EvPendingDelete i => i ∈ itemIDs its
            | _ => True
            end).
  { intros e' He'. apply acceptEvents_kind in He'. destruct e'; try exact I; tauto. }
  destruct (firstInvalid its) as [err|] eqn:Hinv.
  - destruct (processBatch_invalid env its newIdx c err) as [_ Hout];
      [discriminate | exact Hinv |].
    rewrite Hout in He. apply elem_of_cons in He as [->|He]; [exact I | apply Hacc, He].
  - destruct (processBatch_valid env its newIdx c) as [_ Hout];
      [discriminate | exact Hinv |].
    rewrite Hout in He. clear Hout.
    apply elem_of_cons in He as [->|He]; [exact I|].
    apply elem_of_app in He as [He|He]; [apply Hacc, He|].
    apply elem_of_app in He as [He|He].
    + pose proof (dayLoop_events env Background (dayEntries env c its)
                    (clk (acceptItems env (length its) its ∅ c))) as Hdl.
      rewrite Forall_forall in Hdl. specialize (Hdl _ He).
      destruct e; cbn in Hdl; try exact I; try contradiction.
      * apply dayEntries_ids, Hdl.
      * apply dayEntries_ids, Hdl.
      * intros q Hq. apply dayEntries_ids, Hdl, Hq.
    + apply elem_of_app in He as [He|He].
      * apply closeEvents_elem in He as (d & b & t & Hdb & Ht & ->).
        assert (Hid : ID t ∈ entryIDs (rangeOrder (closeRangeOrder env)
                        (val (dayLoop env Background (dayEntries env c its)
                                (clk (acceptItems env (length its) its ∅ c))))))
          by (apply entryIDs_elem; eauto 6).
        apply closed_ids, dayEntries_ids in Hid.
        apply list_elem_of_fmap in Hid as (u & -> & Hu).
        eapply acceptedTasks_ids, Hu.
      * apply list_elem_of_singleton in He. subst e. exact I.
Qed.

Lemma X13_a_pass_touches_only_its_tasks_witness :
  2%nat ∈ ID <$> acceptedTasks (envCancel1 0 oneBlock) 0 [ReqTask taskA; ReqTask taskB].
Proof.
  apply (X13_a_pass_touches_only_its_tasks (envCancel1 0 oneBlock)
           [ReqTask taskA; ReqTask taskB] 7 0%nat (EvSendRes 2 (mkOutput 10 []))).
  apply (bool_decide_unpack _). vm_compute. exact I.
Defined.

(** ** Errors and closes per day bucket (lines 199-207, 229-237, 241-246) *)

Lemma indicator_shift (d d0 : Z) (L k : list Z) :
  L ≡ₚ d0 :: k -> d <> d0 ->
  (if decide (d ∈ L) then 1%nat else 0%nat) = (if decide (d ∈ k) then 1%nat else 0%nat).
Proof.
  intros HL Hne. destruct (decide (d ∈ L)) as [Hin|Hnin], (decide (d ∈ k)) as [Hk|Hnk];
    try reflexivity; exfalso.
  - rewrite HL in Hin. apply elem_of_cons in Hin as [?|?]; contradiction.
  - apply Hnin. rewrite HL. right. exact Hk.
Qed.

Lemma entry_key_elem (entries : list (Z * list Task)) d b :
  (d, b) ∈ entries -> d ∈ entries.*1.
Proof. intros H. apply list_elem_of_fmap. exists (d, b). split; [reflexivity | exact H]. Qed.

Lemma dayLoop_count_le env ctx p entries : forall (L : list Z) c,
  NoDup (entries.*1) -> NoDup L ->
  (forall d b c, (d, b) ∈ entries ->
     (count p (out (processDay env ctx d b c)) <= if decide (d ∈ L) then 1 else 0)%nat) ->
  (count p (out (dayLoop env ctx entries c)) <= length L)%nat.
Proof.
  induction entries as [|[d b] entries IH]; intros L c Hkeys HL Hbound; [cbn; lia|].
  rewrite dayLoop_cons. cbn [out]. rewrite count_app.
  cbn [fmap list_fmap fst] in Hkeys. apply NoDup_cons in Hkeys as [Hd Hkeys].
  change (list_fmap _ _ fst entries) with (entries.*1) in *.
  pose proof (Hbound d b c ltac:(left)) as Hhead.
  destruct (decide (d ∈ L)) as [Hin|Hnin].
  - apply elem_of_Permutation in Hin as [k Hk].
    rewrite Hk in HL. apply NoDup_cons in HL as [_ HLk].
    rewrite Hk. cbn [length].
    specialize (IH k (clk (processDay env ctx d b c)) Hkeys HLk).
    assert (count p (out (dayLoop env ctx entries (clk (processDay env ctx d b c))))
            <= length k)%nat; [|lia].
    apply IH. intros d' b' c' Hin'.
    rewrite <- (indicator_shift d' d L k Hk).
    + apply Hbound. right. exact Hin'.
    + intros ->. apply Hd. eapply entry_key_elem, Hin'.
  - specialize (IH L (clk (processDay env ctx d b c)) Hkeys HL).
    assert (count p (out (dayLoop env ctx entries (clk (processDay env ctx d b c))))
            <= length L)%nat; [|lia].
    apply IH. intros d' b' c' Hin'. apply Hbound. right. exact Hin'.
Qed.

Lemma closeEvents_cons d b entries :
  closeEvents ((d, b) :: entries)
  = ((fun t => EvClose (ID t)) <$> b) ++ closeEvents entries.
Proof. reflexivity. Qed.

Lemma closeEvents_count id entries : forall (L : list Z),
  NoDup (entries.*1) -> NoDup L ->
  (forall d, d ∈ L -> d ∈ entries.*1) ->
  (forall d b, (d, b) ∈ entries ->
     count (isClose id) ((fun t => EvClose (ID t)) <$> b)
     = if decide (d ∈ L) then 1%nat else 0%nat) ->
  count (isClose id) (closeEvents entries) = length L.
Proof.
  induction entries as [|[d b] entries IH]; intros L Hkeys HL Hsub Hcount.
  - destruct L as [|d L]; [reflexivity|]. specialize (Hsub d ltac:(left)). inversion Hsub.
  - rewrite closeEvents_cons, count_app.
    cbn [fmap list_fmap fst] in Hkeys, Hsub. apply NoDup_cons in Hkeys as [Hd Hkeys].
    change (list_fmap _ _ fst entries) with (entries.*1) in *.
    rewrite (Hcount d b ltac:(left)).
    destruct (decide (d ∈ L)) as [Hin|Hnin].
    + apply elem_of_Permutation in Hin as [k Hk].
      pose proof HL as HL'. rewrite Hk in HL'. apply NoDup_cons in HL' as [Hdk HLk].
      rewrite Hk. cbn [length]. f_equal. apply IH; try assumption.
      * intros d' Hd'. specialize (Hsub d' ltac:(rewrite Hk; right; exact Hd')).
        apply elem_of_cons in Hsub as [->|Hsub]; [contradiction | exact Hsub].
      * intros d' b' Hin'. rewrite <- (indicator_shift d' d L k Hk).
        -- apply Hcount. right. exact Hin'.
        -- intros ->. apply Hd. eapply entry_key_elem, Hin'.
    + cbn. apply IH; try assumption.
      * intros d' Hd'. specialize (Hsub d' Hd').
        apply elem_of_cons in Hsub as [->|Hsub]; [contradiction | exact Hsub].
      * intros d' b' Hin'. apply Hcount. right. exact Hin'.
Qed.

Lemma dayEntries_keys env c items : NoDup ((dayEntries env c items).*1).
Proof.
  unfold dayEntries. rewrite rangeOrder_Permutation. apply NoDup_fst_map_to_list.
Qed.

Lemma accepted_ids_sublist env items : forall c,
  (ID <$> acceptedTasks env c items) `sublist_of` itemIDs items.
Proof.
  induction items as [|[|u|tag] items IH]; intros c; cbn [acceptedTasks itemIDs];
    try apply sublist_nil_l.
  destruct (cancelledBy env u c).
  - apply sublist_cons, IH.
  - rewrite fmap_cons. apply sublist_skip, IH.
Qed.

Lemma bucket_ids_NoDup env c items d :
  NoDup (itemIDs items) -> NoDup (ID <$> bucketOf (acceptedTasks env c items) d).
Proof.
  intros Hnd. eapply sublist_NoDup; [exact Hnd|].
  etransitivity; [|apply accepted_ids_sublist].
  apply fmap_sublist. unfold bucketOf. apply sublist_filter.
Qed.

Lemma bucket_without env c items d t :
  NoDup (itemIDs items) -> ReqTask t ∈ items -> d ∉ taskDays t ->
  ID t ∉ ID <$> bucketOf (acceptedTasks env c items) d.
Proof.
  intros Hnd Ht Hd Hin. apply list_elem_of_fmap in Hin as (u & Heq & Hu).
  unfold bucketOf in Hu. apply list_elem_of_filter in Hu as [Hdu Hu].
  apply accepted_in_items in Hu.
  rewrite (itemIDs_inj items u t Hnd Hu Ht (eq_sym Heq)) in Hdu. contradiction.
Qed.

Lemma dayWork_no_error env ctx day ts tenant0 c id :
  count (isSendErr id) (dayWork env ctx day ts tenant0 c) = 0%nat.
Proof.
  apply count_zero. unfold dayWork. constructor; [reflexivity|].
  destruct (getBlockRefs env tenant0 _ _) as [err|[|b brs]]; [constructor | |].
  - apply Forall_forall. intros e He. unfold passEvents in He.
    apply list_elem_of_bind in He as (t & He & _).
    apply list_elem_of_fmap in He as (fp & -> & _). reflexivity.
  - cbn zeta. apply Forall_app. split.
    + rewrite processBlocksWithCallback_out. constructor; [reflexivity|].
      eapply Forall_impl;
        [apply (Fetch_events queryEvent), blockCallback_queryEvents|].
      intros e He. destruct e; cbn in He; try contradiction; reflexivity.
    + destruct (val _); repeat constructor.
Qed.

Lemma errEvents_count_le id err ts :
  NoDup (ID <$> ts) -> (count (isSendErr id) (errEvents err ts) <= 1)%nat.
Proof.
  induction ts as [|t ts IH]; intros Hnd; [cbn; lia|].
  rewrite fmap_cons in Hnd. apply NoDup_cons in Hnd as [Ht Hnd].
  unfold errEvents. rewrite fmap_cons. fold (errEvents err ts).
  change (?x :: ?l) with ([x] ++ l). rewrite count_app.
  destruct (decide (ID t = id)) as [<-|Hne].
  - assert (count (isSendErr (ID t)) (errEvents err ts) = 0%nat) as ->.
    { apply count_zero. unfold errEvents. apply Forall_fmap, Forall_forall.
      intros u Hu. cbn. apply bool_decide_eq_false_2. intros Heq. apply Ht.
      rewrite <- Heq. apply list_elem_of_fmap_2, Hu. }
    unfold count. cbn. rewrite decide_True; [cbn; lia|].
    apply bool_decide_eq_true_2. reflexivity.
  - specialize (IH Hnd).
    assert (count (isSendErr id) [EvSendErr (ID t) err] = 0%nat) as ->; [|lia].
    apply count_zero. repeat constructor. cbn. apply bool_decide_eq_false_2. exact Hne.
Qed.

Lemma processDay_errors_le env ctx day bucket c id :
  NoDup (ID <$> bucket) ->
  (count (isSendErr id) (out (processDay env ctx day bucket c))
   <= if decide (id ∈ ID <$> bucket) then 1 else 0)%nat.
Proof.
  intros Hnd. destruct (decide (id ∈ ID <$> bucket)) as [Hin|Hnin].
  - destruct (processDay_spec env ctx day bucket c) as [_ Hout]. rewrite Hout.
    destruct (survivors env c bucket) as [|t0 rest] eqn:Hs; [cbn; lia|].
    rewrite processTasks_out, count_app, dayWork_no_error.
    destruct (dayError _ _ _ _ _ _); [|cbn; lia].
    cbn [Nat.add]. apply errEvents_count_le.
    eapply sublist_NoDup; [exact Hnd|]. apply fmap_sublist.
    rewrite <- Hs. apply survivors_sublist.
  - assert (count (isSendErr id) (out (processDay env ctx day bucket c)) = 0%nat) as ->;
      [|lia].
    apply count_zero. eapply Forall_impl; [apply processDay_events|].
    intros e He. destruct e; try reflexivity. cbn in He |- *.
    apply bool_decide_eq_false_2. intros ->. contradiction.
Qed.

(** X10. With identities unique in the batch, a task is sent at most one
    error for each day bucket it was put in: over a whole pass, no more
    errors than it spans days, and at most one when its two bounds are the
    same day. *)
Theorem X10_at_most_one_error_per_day env items newIdx c t :
  NoDup (itemIDs items) -> ReqTask t ∈ items ->
  (count (isSendErr (ID t)) (out (processBatch env items newIdx c))
   <= length (taskDays t))%nat.
Proof.
  intros Hnd Ht.
  assert (Hne : items <> []) by (intros ->; inversion Ht).
  assert (Hacc : count (isSendErr (ID t)) (acceptEvents env (length items) c items) = 0%nat).
  { apply count_zero, Forall_forall. intros e He.
    apply acceptEvents_kind in He. destruct e; try reflexivity; contradiction. }
  destruct (firstInvalid items) as [err|] eqn:Hinv.
  - destruct (processBatch_invalid env items newIdx c err Hne Hinv) as [_ Hout].
    rewrite Hout. change (?x :: ?l) with ([x] ++ l). rewrite count_app, Hacc.
    change (count (isSendErr (ID t)) [EvAddDequeuedTasks (length items)]) with 0%nat. lia.
  - destruct (processBatch_valid env items newIdx c Hne Hinv) as [_ Hout].
    rewrite Hout. change (?x :: ?l ++ ?l') with ([x] ++ l ++ l').
    rewrite !count_app, Hacc.
    change (count (isSendErr (ID t)) [EvAddDequeuedTasks (length items)]) with 0%nat.
    change (count (isSendErr (ID t)) [EvRelease (length items)]) with 0%nat.
    match goal with
    | |- (_ + (_ + (_ + (count _ (closeEvents ?es) + _))) <= _)%nat =>
        assert (count (isSendErr (ID t)) (closeEvents es) = 0%nat) as ->
    end.
    { apply count_zero, Forall_forall. intros e He.
      apply closeEvents_elem in He as (? & ? & ? & _ & _ & ->). reflexivity. }
    assert (count (isSendErr (ID t))
              (out (dayLoop env Background (dayEntries env c items)
                      (clk (acceptItems env (length items) items ∅ c))))
            <= length (taskDays t))%nat; [|lia].
    apply dayLoop_count_le; [apply dayEntries_keys | apply taskDays_NoDup |].
    intros d b c' Hdb. apply dayEntries_elem in Hdb. subst b.
    etransitivity; [apply processDay_errors_le, bucket_ids_NoDup, Hnd|].
    destruct (decide (d ∈ taskDays t)) as [Hd|Hd].
    + destruct (decide _); lia.
    + rewrite decide_False; [lia|]. apply bucket_without; assumption.
Qed.

Lemma X10_at_most_one_error_per_day_witness :
  (count (isSendErr 1)
     (out (processBatch (envQuiet failsAfterD0) [ReqTask taskTwoDays; ReqTask taskB] 7 0%nat))
   <= 2)%nat.
Proof.
  apply (X10_at_most_one_error_per_day (envQuiet failsAfterD0)
           [ReqTask taskTwoDays; ReqTask taskB] 7 0%nat taskTwoDays).
  - apply (bool_decide_unpack _). vm_compute. exact I.
  - left.
Defined.

Lemma survivors_no_cancel env : forall s c,
  (forall id, cancelledAt env id = None) -> survivors env c s = s.
Proof.
  induction s as [|t s IH]; intros c Hnone; [reflexivity|].
  cbn [survivors]. unfold cancelledBy at 1. rewrite Hnone. f_equal. apply IH, Hnone.
Qed.

Lemma dayLoop_val_no_cancel env ctx entries : forall c,
  (forall id, cancelledAt env id = None) -> val (dayLoop env ctx entries c) = entries.
Proof.
  induction entries as [|[d b] entries IH]; intros c Hnone; [reflexivity|].
  rewrite dayLoop_cons. cbn [val]. rewrite IH by exact Hnone. f_equal. f_equal.
  destruct (processDay_spec env ctx d b c) as [Hval _]. rewrite Hval.
  rewrite survivors_no_cancel by exact Hnone. rewrite drop_all. apply app_nil_r.
Qed.

Lemma closes_without id ts :
  id ∉ ID <$> ts -> count (isClose id) ((fun t => EvClose (ID t)) <$> ts) = 0%nat.
Proof.
  intros Hid. apply count_zero, Forall_fmap, Forall_forall. intros u Hu. cbn.
  apply bool_decide_eq_false_2. intros Heq. apply Hid. rewrite <- Heq.
  apply list_elem_of_fmap_2, Hu.
Qed.

Lemma bucket_close_count (P : Task -> Prop) `{!forall x, Decision (P x)} t ts :
  NoDup (ID <$> ts) -> t ∈ ts ->
  count (isClose (ID t)) ((fun u => EvClose (ID u)) <$> filter P ts)
  = if decide (P t) then 1%nat else 0%nat.
Proof.
  induction ts as [|u ts IH]; intros Hnd Hin; [inversion Hin|].
  rewrite fmap_cons in Hnd. apply NoDup_cons in Hnd as [Hu Hnd].
  assert (Hsub : forall i, i ∈ ID <$> filter P ts -> i ∈ ID <$> ts).
  { intros i Hi. apply list_elem_of_fmap in Hi as (x & -> & Hx).
    apply list_elem_of_filter in Hx as [_ Hx]. apply list_elem_of_fmap_2, Hx. }
  destruct (decide (t = u)) as [->|Hne].
  - assert (Hrest : count (isClose (ID u)) ((fun u => EvClose (ID u)) <$> filter P ts) = 0%nat).
    { apply closes_without. intros Hi. apply Hu, Hsub, Hi. }
    destruct (decide (P u)) as [Hp|Hp].
    + rewrite filter_cons_True by exact Hp. rewrite fmap_cons.
      change (?x :: ?l) with ([x] ++ l). rewrite count_app, Hrest.
      unfold count. cbn. rewrite decide_True; [reflexivity|].
      apply bool_decide_eq_true_2. reflexivity.
    + rewrite filter_cons_False by exact Hp. exact Hrest.
  - assert (Hin' : t ∈ ts) by (apply elem_of_cons in Hin as [?|?]; [contradiction | assumption]).
    assert (Hid : ID u <> ID t).
    { intros Heq. apply Hu. rewrite Heq. apply list_elem_of_fmap_2, Hin'. }
    destruct (decide (P u)) as [Hp|Hp].
    + rewrite filter_cons_True by exact Hp. rewrite fmap_cons.
      change (?x :: ?l) with ([x] ++ l). rewrite count_app, IH by assumption.
      assert (count (isClose (ID t)) [EvClose (ID u)] = 0%nat) as ->; [|reflexivity].
      apply count_zero. repeat constructor. cbn. apply bool_decide_eq_false_2. exact Hid.
    + rewrite filter_cons_False by exact Hp. apply IH; assumption.
Qed.

(** X11. When the batch holds only tasks with unique identities and no
    token fires, [Close] is called on a task once for each day bucket it was
    put in: once when its two bounds are the same day, and as many times as
    it spans days otherwise.  All these calls are made by the closing
    loop. *)
Theorem X11_close_is_called_once_per_day env items newIdx c t :
  firstInvalid items = None -> NoDup (itemIDs items) -> ReqTask t ∈ items ->
  (forall id, cancelledAt env id = None) ->
  count (isClose (ID t)) (out (processBatch env items newIdx c)) = length (taskDays t).
Proof.
  intros Hinv Hnd Ht Hnone.
  assert (Hne : items <> []) by (intros ->; inversion Ht).
  destruct (processBatch_valid env items newIdx c Hne Hinv) as [_ Hout].
  rewrite Hout. clear Hout.
  rewrite dayLoop_val_no_cancel by exact Hnone.
  change (?x :: ?l ++ ?l') with ([x] ++ l ++ l'). rewrite !count_app.
  change (count (isClose (ID t)) [EvAddDequeuedTasks (length items)]) with 0%nat.
  change (count (isClose (ID t)) [EvRelease (length items)]) with 0%nat.
  assert (count (isClose (ID t)) (acceptEvents env (length items) c items) = 0%nat) as ->.
  { apply count_zero, Forall_forall. intros e He. destruct e; try reflexivity.
    apply acceptEvents_close in He as [k Hk]. rewrite Hnone in Hk. discriminate. }
  assert (count (isClose (ID t))
            (out (dayLoop env Background (dayEntries env c items)
                    (clk (acceptItems env (length items) items ∅ c)))) = 0%nat) as ->.
  { apply count_zero. eapply Forall_impl; [apply dayLoop_events|].
    intros e He. destruct e; try reflexivity. destruct He. }
  pose proof (accepted_never_cancelled env t items c Hinv Ht (Hnone (ID t))) as Hacc.
  assert (Hcloses : count (isClose (ID t))
                      (closeEvents (rangeOrder (closeRangeOrder env) (dayEntries env c items)))
                    = length (taskDays t)); [|lia].
  apply closeEvents_count.
  - rewrite rangeOrder_Permutation. apply dayEntries_keys.
  - apply taskDays_NoDup.
  - intros d Hd. rewrite rangeOrder_Permutation.
    eapply entry_key_elem, dayEntries_has; eassumption.
  - intros d b Hdb. rewrite rangeOrder_Permutation in Hdb.
    apply dayEntries_elem in Hdb. subst b. unfold bucketOf.
    rewrite (bucket_close_count (fun u => d ∈ taskDays u) t).
    + reflexivity.
    + eapply sublist_NoDup; [exact Hnd | apply accepted_ids_sublist].
    + exact Hacc.
Qed.

Lemma X11_close_is_called_once_per_day_witness :
  count (isClose 1)
    (out (processBatch (envQuiet noBlocks) [ReqTask taskB; ReqTask taskTwoDays] 7 0%nat))
  = 2%nat.
Proof.
  apply (X11_close_is_called_once_per_day (envQuiet noBlocks)
           [ReqTask taskB; ReqTask taskTwoDays] 7 0%nat taskTwoDays).
  - reflexivity.
  - apply (bool_decide_unpack _). vm_compute. exact I.
  - right. left.
  - intros id. reflexivity.
Defined.

(** ** Sends and closes of one task, in order *)

Lemma app_split {A} (l1 : list A) : forall l2 pre post x,
  l1 ++ l2 = pre ++ x :: post ->
  (exists post1, l1 = pre ++ x :: post1 /\ post = post1 ++ l2)
  \/ (exists pre2, l2 = pre2 ++ x :: post /\ pre = l1 ++ pre2).
Proof.
  induction l1 as [|a l1 IH]; intros l2 pre post x Heq.
  - right. exists pre. split; [exact Heq | reflexivity].
  - destruct pre as [|b pre].
    + cbn in Heq. injection Heq as -> <-. left. exists l1. split; reflexivity.
    + cbn in Heq. injection Heq as -> Heq.
      destruct (IH _ _ _ _ Heq) as [(post1 & -> & ->)|(pre2 & -> & ->)].
      * left. exists post1. split; reflexivity.
      * right. exists pre2. split; reflexivity.
Qed.

Lemma closed_in_queue_not_accepted env n i items : forall c,
  NoDup (itemIDs items) ->
  EvClose i ∈ acceptEvents env n c items ->
  i ∉ ID <$> acceptedTasks env c items.
Proof.
  induction items as [|[|u|tag] items IH]; intros c Hnd Hin; cbn [acceptEvents] in Hin.
  - inversion Hin.
  - apply list_elem_of_singleton in Hin. discriminate.
  - cbn [itemIDs] in Hnd. apply NoDup_cons in Hnd as [Hu Hnd].
    apply elem_of_cons in Hin as [Hin|Hin]; [discriminate|].
    cbn [acceptedTasks].
    destruct (cancelledBy env u c).
    + apply elem_of_app in Hin as [Hin|Hin]; [|apply (IH _ Hnd Hin)].
      apply list_elem_of_singleton in Hin. injection Hin as ->.
      intros Hacc. apply Hu. eapply elem_of_sublist; [exact Hacc|].
      apply accepted_ids_sublist.
    + cbn [app] in Hin. rewrite fmap_cons. apply not_elem_of_cons. split.
      * intros ->. apply Hu. apply acceptEvents_kind in Hin. exact Hin.
      * apply (IH _ Hnd Hin).
  - apply list_elem_of_singleton in Hin. discriminate.
Qed.

(** X14. With identities unique in the batch, a pass never sends to a task
    after it has called its [Close]: a task closed by the dequeue loop is
    sent nothing for the rest of the pass, and the closing loop starts only
    when every send of the pass has been made. *)
Theorem X14_no_send_after_close env items newIdx c pre i post e :
  NoDup (itemIDs items) ->
  out (processBatch env items newIdx c) = pre ++ EvClose i :: post ->
  e ∈ post ->
  isSendRes i e = false /\ isSendErr i e = false.
Proof.
  intros Hnd Hsplit He.
  destruct items as [|r items].
  { destruct pre as [|? [|? ?]]; discriminate. }
  set (its := r :: items) in *.
  assert (Hquiet_accept : forall x, x ∈ acceptEvents env (length its) c its ->
                                    isSendRes i x = false /\ isSendErr i x = false).
  { intros x Hx. apply acceptEvents_kind in Hx.
    destruct x; try contradiction; split; reflexivity. }
  destruct (firstInvalid its) as [err|] eqn:Hinv.
  - destruct (processBatch_invalid env its newIdx c err) as [_ Hout];
      [discriminate | exact Hinv |].
    rewrite Hout in Hsplit.
    assert (Hin : e ∈ EvAddDequeuedTasks (length its) :: acceptEvents env (length its) c its).
    { rewrite Hsplit. apply elem_of_app. right. right. exact He. }
    apply elem_of_cons in Hin as [->|Hin]; [split; reflexivity | apply Hquiet_accept, Hin].
  - destruct (processBatch_valid env its newIdx c) as [_ Hout];
      [discriminate | exact Hinv |].
    rewrite Hout in Hsplit. clear Hout.
    set (days := dayLoop env Background (dayEntries env c its) _) in *.
    set (closes := closeEvents (rangeOrder (closeRangeOrder env) (val days))) in *.
    pose proof (dayLoop_events env Background (dayEntries env c its)
                  (clk (acceptItems env (length its) its ∅ c))) as Hdl.
    fold days in Hdl. rewrite Forall_forall in Hdl.
    assert (Hquiet_tail : forall x, x ∈ closes ++ [EvRelease (length its)] ->
                                    isSendRes i x = false /\ isSendErr i x = false).
    { intros x Hx. apply elem_of_app in Hx as [Hx|Hx].
      - apply closeEvents_elem in Hx as (? & ? & ? & _ & _ & ->). split; reflexivity.
      - apply list_elem_of_singleton in Hx. subst x. split; reflexivity. }
    change (EvAddDequeuedTasks (length its) :: acceptEvents env (length its) c its
            ++ out days ++ closes ++ [EvRelease (length its)])
      with ((EvAddDequeuedTasks (length its) :: acceptEvents env (length its) c its)
            ++ (out days ++ closes ++ [EvRelease (length its)])) in Hsplit.
    apply app_split in Hsplit as [(post1 & Hhead & ->)|(pre2 & Htail & _)].
    + assert (Hclosed : EvClose i ∈ acceptEvents env (length its) c its).
      { assert (Hin : EvClose i ∈ EvAddDequeuedTasks (length its)
                                  :: acceptEvents env (length its) c its)
          by (rewrite Hhead; apply elem_of_app; right; left).
        apply elem_of_cons in Hin as [?|?]; [discriminate | assumption]. }
      pose proof (closed_in_queue_not_accepted env _ i its c Hnd Hclosed) as Hnot.
      apply elem_of_app in He as [He|He].
      * assert (Hin : e ∈ EvAddDequeuedTasks (length its)
                          :: acceptEvents env (length its) c its)
          by (rewrite Hhead; apply elem_of_app; right; right; exact He).
        apply elem_of_cons in Hin as [->|Hin]; [split; reflexivity | apply Hquiet_accept, Hin].
      * apply elem_of_app in He as [He|He]; [|apply Hquiet_tail, He].
        specialize (Hdl _ He).
        destruct e; try (split; reflexivity); cbn in Hdl |- *.
        -- split; [|reflexivity]. apply bool_decide_eq_false_2. intros ->.
           apply Hnot, dayEntries_ids, Hdl.
        -- split; [reflexivity|]. apply bool_decide_eq_false_2. intros ->.
           apply Hnot, dayEntries_ids, Hdl.
    + apply app_split in Htail as [(post1 & Hdays & _)|(pre3 & Htail & _)].
      * exfalso. apply (Hdl (EvClose i)). rewrite Hdays. apply elem_of_app. right. left.
      * apply Hquiet_tail. rewrite Htail. apply elem_of_app. right. right. exact He.
Qed.

Lemma X14_no_send_after_close_witness :
  isSendRes 2 (EvClose 2) = false /\ isSendErr 2 (EvClose 2) = false.
Proof.
  apply (X14_no_send_after_close (envCancel1 1 noBlocks) [ReqTask taskA; ReqTask taskB] 7 0%nat
           [EvAddDequeuedTasks 2; EvPendingDelete 1; EvPendingDelete 2;
            EvGetBlockRefs "tenant-a" 0 86399999;
            EvSendRes 2 (mkOutput 10 []); EvSendRes 2 (mkOutput 20 [])]
           2%nat [EvClose 2; EvRelease 2] (EvClose 2)).
  - apply (bool_decide_unpack _). vm_compute. exact I.
  - vm_compute. reflexivity.
  - left.
Defined.
